(** * Config-Updater: macro resolution over a repository chain

    Shallow embedding of the classes [CM] and [ConfigUpdater] of the
    Config-Updater module (the version whose fallback key is [$defaults]):
    the repository chain ([register], [unregister], [reset]), macro
    resolution ([getCmValue]) and the in-place tree walk ([updateConfig]).

    Modelling bounds.  JS numbers are the integers [Z]; strings are ASCII
    strings.  Objects live in a store and are referred to by location, so two
    properties can hold the same object.  An object is its list of own
    enumerable properties in [Object.keys] order, arrays carrying their
    [length] as well.  Objects are ordinary ones: extensible, with writable
    data properties only (no accessors, nothing frozen or sealed), so a write
    can fail only at the [length] of an array.  Properties inherited from
    prototypes are not modelled, and an object's prototype is not part of the
    store (an assignment to [__proto__] that replaces it leaves the own
    properties as they are).
    Callbacks and custom resolvers are functions of their arguments and of the
    store, and may throw; they do not write to the store.  The conversion of
    a string, a function or an object to a number, which only the assignment
    to the [length] of an array needs, is a parameter like them. *)

From Stdlib Require Import ZArith String Ascii List Bool Lia DecimalString.
From stdpp Require Import base option list.

Import ListNotations.
Local Open Scope string_scope.
Local Open Scope list_scope.

(** ** Values and the object store *)

Abbreviation loc := nat.
Abbreviation fnid := nat.

Inductive value : Type :=
| VUndef
| VNull
| VBool (b : bool)
| VNum (n : Z)
| VStr (s : string)
| VFun (f : fnid)
| VRef (l : loc).

(** The path to the current property: strings for mapping keys, numbers for
    array indices (whatever the caller of [getValue] passes otherwise). *)
Abbreviation path := (list value).

Record obj : Type := mkObj {
  arrLen : option nat;             (* [Some n] for an array of length [n] *)
  props  : list (string * value)   (* own enumerable properties *)
}.

Abbreviation heap := (list obj).

Definition emptyObj : obj := mkObj None [].

(** Locations outside the store do not occur in well-formed stores; they read
    as the empty mapping and writing to them changes nothing. *)
Definition objAt (h : heap) (l : loc) : obj :=
  match h !! l with Some o => o | None => emptyObj end.

Inductive cu_message : Type :=
| InvalidMacroKey (key : value) (p : path)   (* Invalid macro-key "<key>" (path: ...) *)
| MandatoryValueMissing (p : path)           (* Property "<path>" is mandatory. *)
| InvalidCallback.                           (* The callback-property must be a function *)

Inductive error : Type :=
| CuError (m : cu_message)
| TypeError
| RangeError                                 (* Invalid array length *)
| OtherError (code : nat).

Inductive outcome (A : Type) : Type :=
| Ok (a : A)
| Throw (e : error)
| OutOfFuel.
Arguments Ok {A} a.
Arguments Throw {A} e.
Arguments OutOfFuel {A}.

Definition bind {A B : Type} (x : outcome A) (k : A -> outcome B) : outcome B :=
  match x with
  | Ok a => k a
  | Throw e => Throw e
  | OutOfFuel => OutOfFuel
  end.

#[global] Instance outcome_bind : MBind outcome := fun A B k x => bind x k.
#[global] Instance outcome_ret : MRet outcome := fun A a => Ok a.

(** ** JS primitives used by the code *)

Definition truthy (v : value) : bool :=
  match v with
  | VUndef | VNull => false
  | VBool b => b
  | VNum n => negb (n =? 0)%Z
  | VStr s => negb (s =? EmptyString)
  | VFun _ | VRef _ => true
  end.

(** [v == undefined] *)
Definition isNullish (v : value) : bool :=
  match v with VUndef | VNull => true | _ => false end.

(** [v !== undefined] *)
Definition isDefined (v : value) : bool :=
  match v with VUndef => false | _ => true end.

(** [typeof v == "object"] for a truthy [v] *)
Definition isObject (v : value) : bool :=
  match v with VRef _ => true | _ => false end.

Definition value_eqb (a b : value) : bool :=
  match a, b with
  | VUndef, VUndef | VNull, VNull => true
  | VBool x, VBool y => Bool.eqb x y
  | VNum x, VNum y => (x =? y)%Z
  | VStr x, VStr y => (x =? y)
  | VFun x, VFun y => Nat.eqb x y
  | VRef x, VRef y => Nat.eqb x y
  | _, _ => false
  end.

Definition string_of_nat (n : nat) : string :=
  NilEmpty.string_of_uint (Nat.to_uint n).

(** A property key that is an array index: a canonical numeric string
    ("0", "1", "17") below 2^32 - 1. *)
Definition parseIndex (k : string) : option nat :=
  match NilEmpty.uint_of_string k with
  | Some u =>
      if (Z.of_uint u <? 4294967295)%Z then
        let n := Z.to_nat (Z.of_uint u) in
        if string_of_nat n =? k then Some n else None
      else None
  | None => None
  end.

Fixpoint lookupProp (ps : list (string * value)) (k : string) : option value :=
  match ps with
  | [] => None
  | (k', v) :: rest => if k' =? k then Some v else lookupProp rest k
  end.

(** [Object.keys(o)] *)
Definition ownKeys (o : obj) : list string := map fst (props o).

(** [o.hasOwnProperty(k)] for an enumerable [k] *)
Definition hasOwn (o : obj) (k : string) : bool :=
  match lookupProp (props o) k with Some _ => true | None => false end.

(** [o[k]] on an object: own properties, and [length] of an array. *)
Definition getOwn (o : obj) (k : string) : value :=
  match lookupProp (props o) k with
  | Some v => v
  | None =>
      match arrLen o with
      | Some n => if k =? "length" then VNum (Z.of_nat n) else VUndef
      | None => VUndef
      end
  end.

Fixpoint replaceProp (ps : list (string * value)) (k : string) (v : value)
  : list (string * value) :=
  match ps with
  | [] => []
  | (k', v') :: rest =>
      if k' =? k then (k', v) :: rest else (k', v') :: replaceProp rest k v
  end.

(** A new index key goes among the index keys in ascending order, which come
    before all other keys. *)
Fixpoint insertIndexProp (ps : list (string * value)) (i : nat) (k : string)
  (v : value) : list (string * value) :=
  match ps with
  | [] => [(k, v)]
  | (k', v') :: rest =>
      match parseIndex k' with
      | Some j => if (j <? i)%nat then (k', v') :: insertIndexProp rest i k v
                  else (k, v) :: ps
      | None => (k, v) :: ps
      end
  end.

(** [o[k] = v] as an ordinary write: an own property [k] gets the value, a
    new one is created (an array grows to hold a new index).  The two writes
    that are not ordinary, to the [length] of an array and to a [__proto__]
    that is not an own property, are told apart in [assignProp]. *)
Definition setProp (o : obj) (k : string) (v : value) : obj :=
  match lookupProp (props o) k with
  | Some _ => mkObj (arrLen o) (replaceProp (props o) k v)
  | None =>
      match parseIndex k with
      | Some i =>
          mkObj (match arrLen o with
                 | Some n => Some (Nat.max n (S i))
                 | None => None
                 end)
                (insertIndexProp (props o) i k v)
      | None => mkObj (arrLen o) (props o ++ [(k, v)])
      end
  end.

(** [h[l][k] = v] in the store, for an ordinary write. *)
Definition setAt (h : heap) (l : loc) (k : string) (v : value) : heap :=
  <[l := setProp (objAt h l) k v]> h.

(** [Array.isArray(o)] *)
Definition isArray (o : obj) : bool :=
  match arrLen o with Some _ => true | None => false end.

(** [array.length = n]: the elements from index [n] on are deleted, a longer
    array gets no new elements. *)
Definition setLength (o : obj) (n : nat) : obj :=
  mkObj (Some n)
    (List.filter
       (λ kv, match parseIndex (fst kv) with
              | Some i => (i <? n)%nat
              | None => true
              end)
       (props o)).

Fixpoint nthChar (s : string) (i : nat) : option ascii :=
  match s, i with
  | EmptyString, _ => None
  | String c _, O => Some c
  | String _ rest, S j => nthChar rest j
  end.

(** [v[k]] for any value [v]; a read on [undefined] or [null] throws. *)
Definition getv (h : heap) (v : value) (k : string) : outcome value :=
  match v with
  | VUndef | VNull => Throw TypeError
  | VRef l => Ok (getOwn (objAt h l) k)
  | VStr s =>
      if k =? "length" then Ok (VNum (Z.of_nat (String.length s)))
      else match parseIndex k with
           | Some i => match nthChar s i with
                       | Some c => Ok (VStr (String c EmptyString))
                       | None => Ok VUndef
                       end
           | None => Ok VUndef
           end
  | VBool _ | VNum _ | VFun _ => Ok VUndef
  end.

(** [v && v.hasOwnProperty(k)] *)
Definition hasOwnProperty (h : heap) (v : value) (k : string) : bool :=
  match v with
  | VRef l => hasOwn (objAt h l) k
  | _ => false
  end.

(** [s.startsWith("?")] and [s.substring(1)] *)
Definition startsWithIndicator (s : string) : bool :=
  match s with
  | String c _ => Ascii.eqb c "?"%char
  | EmptyString => false
  end.

Definition afterIndicator (s : string) : string :=
  match s with
  | String _ rest => rest
  | EmptyString => EmptyString
  end.

(** [s.split("/")] *)
Fixpoint split_slash (s : string) : list string :=
  match s with
  | EmptyString => [EmptyString]
  | String c rest =>
      if Ascii.eqb c "/"%char then EmptyString :: split_slash rest
      else match split_slash rest with
           | hd :: tl => String c hd :: tl
           | [] => [String c EmptyString]
           end
  end.

(** ** The macro keys *)

Module CM.
Definition KEY_KEY := "$$".
Definition DEFAULT_KEY := "$default".
Definition MANDATORY_KEY := "$mandatory".
Definition CALLBACK_KEY := "$callback".
Definition PARENT_DEPENDENT_INDICATOR := "?".

(** [static checkCallback(value)] *)
Definition checkCallback (v : value) : outcome bool :=
  if negb (truthy v) then Ok false
  else match v with
       | VFun _ => Ok true
       | _ => Throw (CuError InvalidCallback)
       end.
End CM.

Definition FALLBACK_KEY := "$defaults".

(** ** The repository chain *)

Inductive resolverRef : Type :=
| DefaultResolver                (* [this.#default_resolver] *)
| CustomResolver (r : value).    (* the truthy [resolver] argument of [register] *)

(** entry-format: [name, resolver, dictionary] *)
Record repoEntry : Type := mkEntry {
  entryName : string;
  entryResolver : resolverRef;
  entrySource : value
}.

Abbreviation repositories := (list repoEntry).

(** [Array.prototype.splice(index, 0, e)]: a negative index counts from the
    end, and the position is clamped to the ends of the list. *)
Definition spliceStart (len : nat) (index : Z) : nat :=
  if (index <? 0)%Z then Z.to_nat (Z.max (Z.of_nat len + index) 0)
  else Nat.min (Z.to_nat index) len.

Definition spliceInsert (index : Z) (e : repoEntry) (rs : repositories)
  : repositories :=
  let i := spliceStart (length rs) index in
  (take i rs ++ e :: drop i rs)%list.

(** [unregister(name)]: removes the first entry with that name. *)
Fixpoint unregister (name : string) (rs : repositories) : bool * repositories :=
  match rs with
  | [] => (false, [])
  | e :: rest =>
      if entryName e =? name then (true, rest)
      else let '(found, rest') := unregister name rest in (found, e :: rest')
  end.

Definition DEFAULT_INDEX : Z := 9999999.

(** [register(name, repository, index = 9999999, resolver = undefined)] *)
Definition register (name : string) (repository : value) (index : Z)
  (resolver : value) (rs : repositories) : repositories :=
  let rs' := snd (unregister name rs) in
  spliceInsert index
    (mkEntry name
       (if truthy resolver then CustomResolver resolver else DefaultResolver)
       repository)
    rs'.

(** [reset()]: only [process.env] is registered. *)
Definition reset (processEnv : value) : repositories :=
  register "env" processEnv DEFAULT_INDEX VUndef [].

(** [getRepositoryNames()] *)
Definition getRepositoryNames (rs : repositories) : list string :=
  map entryName rs.

Inductive chainOp : Type :=
| OpRegister (name : string) (repository : value) (index : Z) (resolver : value)
| OpUnregister (name : string)
| OpReset.

Definition applyOp (processEnv : value) (rs : repositories) (op : chainOp)
  : repositories :=
  match op with
  | OpRegister name repository index resolver =>
      register name repository index resolver rs
  | OpUnregister name => snd (unregister name rs)
  | OpReset => reset processEnv
  end.

(** The chain after the constructor (which calls [reset]) and a sequence of
    operations. *)
Definition runOps (processEnv : value) (ops : list chainOp) : repositories :=
  fold_left (applyOp processEnv) ops (reset processEnv).

(** ** Parent-dependent keys *)

(** [path[p]] *)
Definition pathAt (pth : path) (p : Z) : value :=
  if (p <? 0)%Z then VUndef else nth (Z.to_nat p) pth VUndef.

Definition isNumber (v : value) : bool :=
  match v with VNum _ => true | _ => false end.

(** [while (p >= 0 && typeof path[p] == "number") p--] *)
Fixpoint skipIndices (fuel : nat) (pth : path) (p : Z) : option Z :=
  match fuel with
  | O => None
  | S fuel' =>
      if (0 <=? p)%Z && isNumber (pathAt pth p)
      then skipIndices fuel' pth (p - 1)
      else Some p
  end.

(** The [while (p >= 0)] loop of [getCmValue]; [None] when the fuel runs out. *)
Fixpoint findParent (fuel : nat) (pth : path) (p : Z) : option string :=
  match fuel with
  | O => None
  | S fuel' =>
      if (0 <=? p)%Z then
        match pathAt pth p with
        | VStr s =>
            (* the first path is the key itself *)
            if (p <? Z.of_nat (length pth) - 1)%Z then Some s
            else findParent fuel' pth (p - 1)
        | _ =>
            (* skip array-indices, then skip the array-name *)
            match skipIndices (S (length pth)) pth p with
            | Some p' => findParent fuel' pth (p' - 1)
            | None => None
            end
        end
      else Some EmptyString
  end.

Definition parentOf (pth : path) : option string :=
  findParent (S (length pth)) pth (Z.of_nat (length pth) - 1).

(** The search key after the parent-dependent expansion. *)
Definition expandKey (searchKey : string) (pth : path) : option string :=
  if startsWithIndicator searchKey then
    match parentOf pth with
    | Some parent => Some (parent ++ afterIndicator searchKey)%string
    | None => None
    end
  else Some searchKey.

(** [v[k]] where [v] is known to be truthy. *)
Definition readProp (h : heap) (v : value) (k : string) : value :=
  match getv h v k with Ok x => x | _ => VUndef end.

(** ** Resolution *)

Section Resolution.

(** The behaviour of the function values of the program: custom resolvers
    [(repository, splitSearchKey, macro, path)] and macro callbacks
    [(result, macro, path)]. *)
Variable resolverFn :
  fnid -> heap -> value -> list string -> value -> path -> outcome value.
Variable callbackFn :
  fnid -> heap -> value -> value -> path -> outcome value.

(** [#default_resolver(repository, splitSearchKey, macro, path)] *)
Fixpoint default_resolver (h : heap) (repository : value)
  (splitSearchKey : list string) : outcome value :=
  match splitSearchKey with
  | [] => Ok repository
  | p :: rest =>
      r ← getv h repository p;
      if isNullish r then Ok VUndef else default_resolver h r rest
  end.

(** [repository[1](repository[2], searchKeySplit, cm_or_any, path)] *)
Definition callResolver (h : heap) (e : repoEntry) (split : list string)
  (cm : value) (pth : path) : outcome value :=
  match entryResolver e with
  | DefaultResolver => default_resolver h (entrySource e) split
  | CustomResolver (VFun f) => resolverFn f h (entrySource e) split cm pth
  | CustomResolver _ => Throw TypeError
  end.

(** The loop over [this.#repositories]: the result is the first one that is
    [!== undefined], and [undefined] when there is none. *)
Fixpoint queryRepositories (h : heap) (rs : repositories)
  (split : list string) (cm : value) (pth : path) : outcome value :=
  match rs with
  | [] => Ok VUndef
  | e :: rest =>
      result ← callResolver h e split cm pth;
      if isDefined result then Ok result   (* value found? => we're done *)
      else queryRepositories h rest split cm pth
  end.

(** The callback step: [if (callback) { CM.checkCallback(callback);
    result = callback(result, cm_or_any, path) }] *)
Definition applyCallback (h : heap) (callback : value) (result cm : value)
  (pth : path) : outcome value :=
  if truthy callback then
    _ ← CM.checkCallback callback;
    match callback with
    | VFun f => callbackFn f h result cm pth
    | _ => Throw TypeError
    end
  else Ok result.

(** The mandatory check and the return. *)
Definition checkMandatory (mandatory : value) (result : value) (pth : path)
  : outcome value :=
  if isNullish result && truthy mandatory
  then Throw (CuError (MandatoryValueMissing pth))
  else Ok result.

(** The default step: [if (result == undefined &&
    cm_or_any.hasOwnProperty(CM.DEFAULT_KEY)) { path.push("CM.DEFAULT_KEY");
    result = this.getCmValue(cm_or_any[CM.DEFAULT_KEY], path); path.pop() }];
    [rec] is the recursive call. *)
Definition resolveDefault (rec : value -> path -> outcome value) (h : heap)
  (cm : value) (pth : path) (result : value) : outcome value :=
  if isNullish result && hasOwnProperty h cm CM.DEFAULT_KEY then
    d ← getv h cm CM.DEFAULT_KEY;
    rec d (pth ++ [VStr "CM.DEFAULT_KEY"])
  else Ok result.

(** The repository loop followed by the default step. *)
Definition lookupWithDefault (rec : value -> path -> outcome value)
  (h : heap) (rs : repositories) (cm : value) (pth : path)
  (searchKey : string) : outcome value :=
  let searchKeySplit := split_slash searchKey in   (* split only once *)
  result ← queryRepositories h rs searchKeySplit cm pth;
  resolveDefault rec h cm pth result.

(** The result as it stands before the mandatory check. *)
Definition resolveValue (rec : value -> path -> outcome value)
  (h : heap) (rs : repositories) (cm : value) (pth : path)
  (searchKey : string) : outcome value :=
  result ← lookupWithDefault rec h rs cm pth searchKey;
  callback ← getv h cm CM.CALLBACK_KEY;
  applyCallback h callback result cm pth.

(** [getCmValue] on a macro whose (expanded) search key is [searchKey]. *)
Definition resolveMacro (rec : value -> path -> outcome value)
  (h : heap) (rs : repositories) (cm : value) (pth : path)
  (searchKey : string) : outcome value :=
  result ← resolveValue rec h rs cm pth searchKey;
  mandatory ← getv h cm CM.MANDATORY_KEY;
  checkMandatory mandatory result pth.

(** [getCmValue(cm_or_any, path)] *)
Fixpoint getCmValue (fuel : nat) (h : heap) (rs : repositories)
  (cm_or_any : value) (pth : path) : outcome value :=
  match fuel with
  | O => OutOfFuel
  | S fuel' =>
      (* Is it an object with an "$$" element *)
      if truthy cm_or_any && hasOwnProperty h cm_or_any CM.KEY_KEY then
        searchKey ← getv h cm_or_any CM.KEY_KEY;
        (* Only strings can be handled as keys in a repository *)
        match searchKey with
        | VStr key =>
            if negb (truthy searchKey)
            then Throw (CuError (InvalidMacroKey searchKey pth))
            else
              (* Use the parent-key as a prefix? *)
              match expandKey key pth with
              | None => OutOfFuel
              | Some key' =>
                  resolveMacro (getCmValue fuel' h rs) h rs cm_or_any pth key'
              end
        | _ => Throw (CuError (InvalidMacroKey searchKey pth))
        end
      else Ok cm_or_any
  end.

(** ** The tree walk *)

(** [prim == o] for a primitive [prim] and the object at [o] (the object is
    converted to a primitive first; a plain mapping converts to
    "[object Object]"). *)
Variable primEqObj : heap -> value -> loc -> bool.

(** [result != value] where [value] is the object at [lv]. *)
Definition looseNeqObj (h : heap) (result : value) (lv : loc) : bool :=
  match result with
  | VRef l => negb (Nat.eqb l lv)
  | VUndef | VNull | VFun _ => true
  | _ => negb (primEqObj h result lv)
  end.

(** The array length that a string, a function or an object converts to:
    [Some n] when its number is an integer [n] with [0 <= n < 2^32], [None]
    otherwise (NaN, a fraction, a number out of range). *)
Variable lengthOf : heap -> value -> option nat.

(** The length that [array.length = v] sets; [None] where the assignment
    throws a RangeError. *)
Definition toArrayLength (h : heap) (v : value) : option nat :=
  match v with
  | VNum n =>
      if (0 <=? n)%Z && (n <? 4294967296)%Z then Some (Z.to_nat n) else None
  | VNull | VBool false => Some 0
  | VBool true => Some 1
  | VUndef => None                      (* NaN *)
  | VStr _ | VFun _ | VRef _ => lengthOf h v
  end.

(** [o[k] = v] for any key: the [length] of an array is set through
    [setLength]; [__proto__], unless it is an own property of [o], goes to
    the setter of [Object.prototype], which creates no property; every other
    write is ordinary. *)
Definition assignProp (h : heap) (o : obj) (k : string) (v : value)
  : outcome obj :=
  if isArray o && (k =? "length")
  then match toArrayLength h v with
       | Some n => Ok (setLength o n)
       | None => Throw RangeError
       end
  else if (k =? "__proto__") && negb (hasOwn o k) then Ok o
  else Ok (setProp o k v).

(** [h[l][k] = v] in the store, for any key. *)
Definition assignAt (h : heap) (l : loc) (k : string) (v : value)
  : outcome heap :=
  o ← assignProp h (objAt h l) k v;
  Ok (<[l := o]> h).

(** The keys that [for (const key in fallback)] enumerates. *)
Definition forInKeys (h : heap) (fallback : value) : list string :=
  match fallback with
  | VRef l => ownKeys (objAt h l)
  | VStr s => map string_of_nat (seq 0 (String.length s))
  | _ => []
  end.

Definition includesKey (keys : list string) (key : string) : bool :=
  existsb (String.eqb key) keys.

(** One turn of the copy loop, [keys] being [Object.keys(result)] as taken
    before the loop: [if (!keys.includes(key)) result[key] = fallback[key]] *)
Definition copyStep (keys : list string) (fallback : value) (result : loc)
  (hc : heap) (key : string) : outcome heap :=
  if negb (includesKey keys key)
  then assignAt hc result key (readProp hc fallback key)
  else Ok hc.

(** [for (const key in fallback)] over the keys [todo] *)
Fixpoint copyKeys (keys : list string) (fallback : value) (result : loc)
  (todo : list string) (hc : heap) : outcome heap :=
  match todo with
  | [] => Ok hc
  | key :: rest =>
      hc' ← copyStep keys fallback result hc key;
      copyKeys keys fallback result rest hc'
  end.

(** Copy all missing properties from the $defaults-object:
    [const keys = Object.keys(result);
     for (const key in fallback)
       if (!keys.includes(key)) result[key] = fallback[key]] *)
Definition copyDefaults (h : heap) (fallback : value) (result : loc)
  : outcome heap :=
  copyKeys (ownKeys (objAt h result)) fallback result (forInKeys h fallback) h.

(** [indexKey != ConfigUpdater.FALLBACK_KEY] *)
Definition notFallbackKey (indexKey : value) : bool :=
  match indexKey with
  | VStr k => negb (k =? FALLBACK_KEY)
  | _ => true
  end.

(** [!exclude || !exclude.includes(indexKey)]; [None] is a falsy [exclude]. *)
Definition notExcluded (exclude : option (list value)) (indexKey : value)
  : bool :=
  match exclude with
  | None => true
  | Some ex => negb (existsb (value_eqb indexKey) ex)
  end.

(** The property name under which [config[indexKey]] is read and written. *)
Definition keyString (indexKey : value) : string :=
  match indexKey with
  | VStr k => k
  | VNum i => string_of_nat (Z.to_nat i)
  | _ => EmptyString
  end.

Section Traverse.
Variable rs : repositories.
Variable exclude : option (list value).

(** The body of the [for (const indexKey of keys)] loop of
    [traverseConfig(config)]; [descend] is the recursive call. *)
Definition visitKey (fuel : nat) (descend : heap -> path -> loc -> outcome heap)
  (fallback : value) (config : loc) (pth : path) (h : heap)
  (indexKey : value) : outcome heap :=
  let value := getOwn (objAt h config) (keyString indexKey) in
  match value with
  | VRef lv =>
      if notFallbackKey indexKey && notExcluded exclude indexKey then
        let pth' := (pth ++ [indexKey])%list in
        (* try to substitute the value *)
        result ← getCmValue fuel h rs value pth';
        (* Value changed => replace the config-entry *)
        let h1 := if looseNeqObj h result lv
                  then setAt h config (keyString indexKey) result
                  else h in
        match result with
        | VRef lr =>
            (* Copy all missing properties from the $defaults-object *)
            h2 ← (if truthy fallback
                  then copyDefaults h1 fallback lr
                  else Ok h1);
            (* Recursive call for all children of the current node *)
            descend h2 pth' lr
        | _ => Ok h1
        end
      else Ok h
  | _ => Ok h
  end.

(** [for (const indexKey of Object.keys(config))]: the keys are taken
    once, the values are read when their turn comes. *)
Fixpoint visitKeys (step : heap -> value -> outcome heap)
  (keys : list string) (h : heap) : outcome heap :=
  match keys with
  | [] => Ok h
  | k :: rest => h' ← step h (VStr k); visitKeys step rest h'
  end.

(** [for (const indexKey of config.keys())]: the indices run while they
    are below the array's current length. *)
Fixpoint visitIndices (budget : nat) (step : heap -> value -> outcome heap)
  (config : loc) (i : nat) (h : heap) : outcome heap :=
  match budget with
  | O => OutOfFuel
  | S budget' =>
      match arrLen (objAt h config) with
      | Some n =>
          if (i <? n)%nat then
            h' ← step h (VNum (Z.of_nat i));
            visitIndices budget' step config (S i) h'
          else Ok h
      | None => Ok h
      end
  end.

(** [traverseConfig(config)] *)
Fixpoint traverseConfig (fuel : nat) (h : heap) (pth : path) (config : loc)
  : outcome heap :=
  match fuel with
  | O => OutOfFuel
  | S fuel' =>
      let fallback := getOwn (objAt h config) FALLBACK_KEY in
      let step := visitKey fuel' (traverseConfig fuel') fallback config pth in
      match arrLen (objAt h config) with
      | Some n => visitIndices (S n + fuel') step config 0 h
      | None => visitKeys step (ownKeys (objAt h config)) h
      end
  end.

(** [updateConfig(root, exclude, initialParentKey)]; the returned value is
    [root] itself, the result here is the store after the walk. *)
Definition updateConfig (fuel : nat) (h : heap) (root : value)
  (initialParentKey : value) : outcome heap :=
  match root with
  | VRef l =>
      traverseConfig fuel h
        (if truthy initialParentKey then [initialParentKey] else []) l
  | _ => Ok h
  end.

End Traverse.

End Resolution.

(** ** Vocabulary of the statements *)

(** The object at [l] is a macro whose key is the non-empty string [key]. *)
Definition macroKey (h : heap) (l : loc) (key : string) : Prop :=
  lookupProp (props (objAt h l)) CM.KEY_KEY = Some (VStr key) ∧ key ≠ EmptyString.

(** The property [k] of the macro at [l] ([undefined] when it has none). *)
Definition macroProp (h : heap) (l : loc) (k : string) : value :=
  getOwn (objAt h l) k.

(** The falsy values that are not absent: [0], the empty string and [false]. *)
Definition falsyPresent (v : value) : Prop :=
  v = VNum 0 ∨ v = VStr EmptyString ∨ v = VBool false.

(** The parent as the specification words it: scanning the path backward
    from the entry before the node's own one, the first segment that is a
    string (numeric segments are skipped); the empty string when there is
    none. *)
Fixpoint lastNamed (revPath : list value) : string :=
  match revPath with
  | [] => EmptyString
  | VStr s :: _ => s
  | _ :: rest => lastNamed rest
  end.

Definition nearestNamedAncestor (pth : path) : string :=
  lastNamed (tl (rev pth)).







(** The keys that the loop of [traverseConfig] goes through on an object
    that the walk does not change. *)
Definition visitedKeys (o : obj) : list value :=
  match arrLen o with
  | Some n => map (λ i, VNum (Z.of_nat i)) (seq 0 n)
  | None => map VStr (ownKeys o)
  end.

(** A resolved tree, as far as the walk from [config] sees it within depth
    [n]: no object that the walk visits is a macro, and each of them has every
    key of the fallback template of its parent. *)
Fixpoint settledb (n : nat) (exclude : option (list value)) (h : heap)
  (config : loc) : bool :=
  match n with
  | O => false
  | S n' =>
      let o := objAt h config in
      let fallback := getOwn o FALLBACK_KEY in
      forallb
        (λ indexKey,
           match getOwn o (keyString indexKey) with
           | VRef lv =>
               if notFallbackKey indexKey && notExcluded exclude indexKey then
                 negb (hasOwn (objAt h lv) CM.KEY_KEY)
                 && (if truthy fallback
                     then forallb (includesKey (ownKeys (objAt h lv)))
                            (forInKeys h fallback)
                     else true)
                 && settledb n' exclude h lv
               else true
           | _ => true
           end)
        (visitedKeys o)
  end.

(** ** Example stores and functions *)

(** A custom resolver (function 0) that answers [null] to every key, and one
    (any other function) that answers [undefined]. *)
Definition exampleResolverFn (f : fnid) (h : heap) (repository : value)
  (splitSearchKey : list string) (cm : value) (pth : path) : outcome value :=
  match f with
  | O => Ok VNull
  | _ => Ok VUndef
  end.

(** Callbacks that return the value they are given. *)
Definition exampleCallbackFn (f : fnid) (h : heap) (result cm : value)
  (pth : path) : outcome value :=
  Ok result.

(** Callbacks of which function 0 returns the value it is given and every
    other one the string "callback". *)
Definition replacingCallbackFn (f : fnid) (h : heap) (result cm : value)
  (pth : path) : outcome value :=
  match f with
  | O => Ok result
  | _ => Ok (VStr "callback")
  end.

(** [prim == o] for plain mappings, which convert to "[object Object]". *)
Definition examplePrimEqObj (h : heap) (prim : value) (o : loc) : bool :=
  match prim with
  | VStr s => s =? "[object Object]"
  | _ => false
  end.

(** The conversion to an array length for the example stores, none of which
    assigns a string, a function or an object to a [length]: a string that
    is written as an array index converts to that number; the other strings
    of the examples, functions and plain mappings convert to NaN. *)
Definition exampleLengthOf (h : heap) (v : value) : option nat :=
  match v with
  | VStr s => parseIndex s
  | _ => None
  end.

(** [{"$$": "missing1", "$default": {"$$": "missing2", "$default": "X"}}]
    at location 0, its default at location 1, an empty source at 2. *)
Definition defaultChainHeap : heap :=
  [ mkObj None [("$$", VStr "missing1"); ("$default", VRef 1)];
    mkObj None [("$$", VStr "missing2"); ("$default", VStr "X")];
    mkObj None [] ].

(** Macros and sources used in the examples. *)
Definition exampleHeap : heap :=
  [ (* 0 *) mkObj None [("$$", VStr "k")];
    (* 1 *) mkObj None [("k", VStr "first")];
    (* 2 *) mkObj None [("k", VStr "second")];
    (* 3 *) mkObj None [("k", VNum 0)];
    (* 4 *) mkObj None [("$$", VStr "k"); ("$default", VStr "d");
                        ("$mandatory", VBool true)];
    (* 5 *) mkObj None [];
    (* 6 *) mkObj None [("$$", VStr "missing"); ("$mandatory", VBool true)];
    (* 7 *) mkObj None [("$$", VStr "xxx"); ("$callback", VStr "?")];
    (* 8 *) mkObj None [("$$", VStr "xxx"); ("$callback", VNum 0)];
    (* 9 *) mkObj None [("$$", VStr "?_SUFFIX")];
    (* 10 *) mkObj None [("branchA_SUFFIX", VStr "found")] ].

Definition sourceFirst : repoEntry := mkEntry "first" DefaultResolver (VRef 1).
Definition sourceSecond : repoEntry := mkEntry "second" DefaultResolver (VRef 2).
Definition sourceZero : repoEntry := mkEntry "zero" DefaultResolver (VRef 3).
Definition sourceEmpty : repoEntry := mkEntry "env" DefaultResolver (VRef 5).
Definition sourceNull : repoEntry :=
  mkEntry "null" (CustomResolver (VFun 0)) VUndef.

(** A macro [{"$$": "k"}] at 0, the sources [{k: null}] at 1, [{k: "second"}]
    at 2 and [{k: 0}] at 4, the macro with a callback (function 1) at 3 and
    with a default at 5. *)
Definition priorityHeap : heap :=
  [ (* 0 *) mkObj None [("$$", VStr "k")];
    (* 1 *) mkObj None [("k", VNull)];
    (* 2 *) mkObj None [("k", VStr "second")];
    (* 3 *) mkObj None [("$$", VStr "k"); ("$callback", VFun 1)];
    (* 4 *) mkObj None [("k", VNum 0)];
    (* 5 *) mkObj None [("$$", VStr "k"); ("$default", VStr "d")] ].

(** [{"$$": "?_X", "$default": {"$$": "?_Y"}}] at 0 with its default at 1,
    the source [{field_Y: "own-key", branchA_Y: "parent"}] at 2, and
    [{"$$": "a", "$default": {"$$": "b", "$mandatory": true}}] at 3 with its
    default at 4. *)
Definition defaultParentHeap : heap :=
  [ (* 0 *) mkObj None [("$$", VStr "?_X"); ("$default", VRef 1)];
    (* 1 *) mkObj None [("$$", VStr "?_Y")];
    (* 2 *) mkObj None [("field_Y", VStr "own-key");
                        ("branchA_Y", VStr "parent")];
    (* 3 *) mkObj None [("$$", VStr "a"); ("$default", VRef 4)];
    (* 4 *) mkObj None [("$$", VStr "b"); ("$mandatory", VBool true)] ].




(** [{ $defaults: {url: "fallback", prop: "1.2.3"}, branch: {prop: "0.1"} }]
    at location 0, the template at 1, the branch at 2. *)
Definition fallbackHeap : heap :=
  [ mkObj None [("$defaults", VRef 1); ("branch", VRef 2)];
    mkObj None [("url", VStr "fallback"); ("prop", VStr "1.2.3")];
    mkObj None [("prop", VStr "0.1")] ].

(** [fallbackHeap] after [updateConfig]. *)
Definition fallbackHeapDone : heap :=
  [ mkObj None [("$defaults", VRef 1); ("branch", VRef 2)];
    mkObj None [("url", VStr "fallback"); ("prop", VStr "1.2.3")];
    mkObj None [("prop", VStr "0.1"); ("url", VStr "fallback")] ].




Definition testRepository : repoEntry :=
  mkEntry "testRepository" DefaultResolver (VRef 3).

(** The configuration [repWithFallback] of the test-suite (without
    [branchWithDefaults]), the test repository at 14 and an environment at
    15. *)
Definition repWithFallback : heap :=
  [ (* 0 *) mkObj None [("$defaults", VRef 1); ("branchEmpty", VRef 5);
                        ("branchWithValue", VRef 6);
                        ("branchEnvLookup", VRef 7); ("branchList", VRef 10)];
    (* 1 *) mkObj None [("prop", VStr "1.2.3");
                        ("url", VStr "http://localhost:1234");
                        ("onlyInFallback", VStr "fromFallback");
                        ("onlyFallbackEnv", VRef 2);
                        ("onlyFallbackBranchEnv", VRef 3);
                        ("onlyFallbackBranchEnvDefault", VRef 4)];
    (* 2 *) mkObj None [("$$", VStr "URL")];
    (* 3 *) mkObj None [("$$", VStr "?_URL"); ("$default", VStr "<undefined>")];
    (* 4 *) mkObj None [("$$", VStr "?_URLXX");
                        ("$default", VStr "<undefined>")];
    (* 5 *) mkObj None [];
    (* 6 *) mkObj None [("prop", VStr "0.1.2.3")];
    (* 7 *) mkObj None [("url", VStr "http://127.0.0.1:1111/");
                        ("urlEnv", VRef 8); ("urlBranchEnv", VRef 9)];
    (* 8 *) mkObj None [("$$", VStr "URL")];
    (* 9 *) mkObj None [("$$", VStr "?_URL")];
    (* 10 *) mkObj None [("listResult", VRef 11)];
    (* 11 *) mkObj (Some 3) [("0", VRef 12); ("1", VStr "Hello");
                             ("2", VRef 13)];
    (* 12 *) mkObj None [("$$", VStr "URL")];
    (* 13 *) mkObj None [("$$", VStr "?_URL")];
    (* 14 *) mkObj None [("URL", VStr "env-url");
                         ("branchEnvLookup_URL", VStr "branchEnvLookup_URL");
                         ("branchList_URL", VStr "branchList_URL");
                         ("subObj1_URL", VStr "subObj1_URL")];
    (* 15 *) mkObj None [("PATH", VStr "/bin")] ].

(** [configUpdater.register("testRepository", {...}, 0)] after [reset()]. *)
Definition testChain : repositories :=
  register "testRepository" (VRef 14) 0 VUndef (reset (VRef 15)).

(** [{ $defaults: {opts: {url: {"$$": "URL"}}}, a: {}, b: {} }] at location
    0: the template at 1, its entry [opts] at 2, [a] at 3, [b] at 4, the
    macro at 5 and the source [{URL: "env-url"}] at 6. *)
Definition sharedTemplateHeap : heap :=
  [ mkObj None [("$defaults", VRef 1); ("a", VRef 3); ("b", VRef 4)];
    mkObj None [("opts", VRef 2)];
    mkObj None [("url", VRef 5)];
    mkObj None [];
    mkObj None [];
    mkObj None [("$$", VStr "URL")];
    mkObj None [("URL", VStr "env-url")] ].

(** Case analysis on the string comparisons of a goal. *)
Ltac string_cases :=
  repeat match goal with
    | |- context [String.eqb ?a ?b] => destruct (String.eqb_spec a b)
    | H : context [String.eqb ?a ?b] |- _ => destruct (String.eqb_spec a b)
    end;
  subst; try congruence; try done.

(** An object that has kept its kind and its properties: a mapping is still
    a mapping and every key of [o] is a key of [o']; an array is still an
    array and has every key of [o] that is not an index (its length and its
    elements are not compared). *)
Definition objGrows (o o' : obj) : Prop :=
  match arrLen o with
  | Some _ =>
      (∃ n', arrLen o' = Some n')
      ∧ ∀ k, parseIndex k = None → hasOwn o k = true → hasOwn o' k = true
  | None =>
      arrLen o' = None ∧ ∀ k, hasOwn o k = true → hasOwn o' k = true
  end.

(** A store with the same locations in which every object has grown. *)
Definition storeGrows (h h' : heap) : Prop :=
  length h' = length h ∧ ∀ l, objGrows (objAt h l) (objAt h' l).

(** ** The class [CM] *)

(** [#removeProp(propertyKey)]:
    [if (this.hasOwnProperty(propertyKey)) delete this[propertyKey]] *)
Definition removeProp (this : obj) (propertyKey : string) : obj :=
  mkObj (arrLen this)
    (List.filter (λ kv, negb (fst kv =? propertyKey)) (props this)).

(** What [new CM(key, _default)] gives: the new object, the CuError
    [CM(): "key" must be a non-empty-string ("<key>")], or the TypeError of
    reading a property of [null]. *)
Inductive constructed (A : Type) : Type :=
| Constructed (a : A)
| KeyRejected (key : value)
| KeyTypeError.
Arguments Constructed {A} a.
Arguments KeyRejected {A} key.
Arguments KeyTypeError {A}.

Module CMClass.

(** [constructor(key, _default = undefined)]; the result is [this]. *)
Definition constructor (h : heap) (key _default : value) : constructed obj :=
  let withDefault (this : obj) :=
    if isDefined _default then setProp this CM.DEFAULT_KEY _default else this in
  match key with
  | VNull => KeyTypeError               (* typeof null == "object" *)
  | VRef l =>
      if truthy (getOwn (objAt h l) CM.KEY_KEY)
      then (* Object.assign(this, key): each own property of [key] is
              assigned to the new object, where [__proto__] goes to the
              setter and creates no property *)
        Constructed
          (withDefault
             (mkObj None
                (List.filter (λ kv, negb (fst kv =? "__proto__"))
                   (props (objAt h l)))))
      else KeyRejected key
  | VStr s =>
      if truthy key
      then Constructed (withDefault (setProp emptyObj CM.KEY_KEY key))
      else KeyRejected key
  | _ => KeyRejected key
  end.

(** [parentDependent(value)]; [this] after the call (the method itself
    returns nothing). *)
Definition parentDependent (this : obj) (value : value) : outcome obj :=
  match getOwn this CM.KEY_KEY with
  | VStr s =>
      let hasFlag := startsWithIndicator s in
      if truthy value && negb hasFlag
      then Ok (setProp this CM.KEY_KEY
                 (VStr (CM.PARENT_DEPENDENT_INDICATOR ++ s)%string))
      else if negb (truthy value) && hasFlag
           then Ok (setProp this CM.KEY_KEY (VStr (afterIndicator s)))
           else Ok this
  | _ => Throw TypeError                (* this["$$"].startsWith *)
  end.

(** [default(value)]; returns [this]. *)
Definition default (this : obj) (value : value) : obj :=
  if isNullish value then removeProp this CM.DEFAULT_KEY
  else setProp this CM.DEFAULT_KEY value.

(** [mandatory(value)]; returns [this]. *)
Definition mandatory (this : obj) (value : value) : obj :=
  if negb (truthy value) then removeProp this CM.MANDATORY_KEY
  else setProp this CM.MANDATORY_KEY (VBool true).

(** [callback(value)]; returns [this]. *)
Definition callback (this : obj) (value : value) : outcome obj :=
  ok ← CM.checkCallback value;
  if ok : bool then Ok (setProp this CM.CALLBACK_KEY value)
  else Ok (removeProp this CM.CALLBACK_KEY).

(** The static access functions, [if (cm) return cm[...]]: a falsy [cm]
    gives [undefined]. *)
Definition getKey (h : heap) (cm : value) : outcome value :=
  if truthy cm then getv h cm CM.KEY_KEY else Ok VUndef.

Definition getDefault (h : heap) (cm : value) : outcome value :=
  if truthy cm then getv h cm CM.DEFAULT_KEY else Ok VUndef.

Definition getMandatory (h : heap) (cm : value) : outcome value :=
  if truthy cm then getv h cm CM.MANDATORY_KEY else Ok VUndef.

Definition getCallback (h : heap) (cm : value) : outcome value :=
  if truthy cm then getv h cm CM.CALLBACK_KEY else Ok VUndef.

Definition getParentDependent (h : heap) (cm : value) : outcome value :=
  if truthy cm
  then key ← getv h cm CM.KEY_KEY;
       match key with
       | VStr s => Ok (VBool (startsWithIndicator s))
       | _ => Throw TypeError           (* no [startsWith] to call *)
       end
  else Ok VUndef.

End CMClass.

(** The calls that can be made on a macro, one after the other, each on
    [this] as the call before left it. *)
Inductive builderCall : Type :=
| CallDefault (v : value)
| CallMandatory (v : value)
| CallCallback (v : value)
| CallParentDependent (v : value).

Definition applyCall (this : obj) (c : builderCall) : outcome obj :=
  match c with
  | CallDefault v => Ok (CMClass.default this v)
  | CallMandatory v => Ok (CMClass.mandatory this v)
  | CallCallback v => CMClass.callback this v
  | CallParentDependent v => CMClass.parentDependent this v
  end.

Fixpoint applyCalls (this : obj) (cs : list builderCall) : outcome obj :=
  match cs with
  | [] => Ok this
  | c :: rest => this' ← applyCall this c; applyCalls this' rest
  end.

(** What the builder keeps true of a macro: the key is a string, the
    callback is a function if there is one, the mandatory flag is [true] if
    there is one. *)
Definition wellBuilt (o : obj) : Prop :=
  (∃ s, lookupProp (props o) CM.KEY_KEY = Some (VStr s))
  ∧ (∀ v, lookupProp (props o) CM.CALLBACK_KEY = Some v → ∃ f, v = VFun f)
  ∧ (∀ v, lookupProp (props o) CM.MANDATORY_KEY = Some v → v = VBool true).

(** The elements of the array [o] of length [n]. *)
Definition arrayElements (o : obj) (n : nat) : list value :=
  map (λ i, getOwn o (string_of_nat i)) (seq 0 n).

(** Every reference in the store points into the store. *)
Definition closedHeap (h : heap) : Prop :=
  ∀ l o k l', h !! l = Some o → lookupProp (props o) k = Some (VRef l') →
              (l' < length h)%nat.

(** A chain of sources with the default resolver that lie in the store [h]. *)
Definition defaultSources (h : heap) (rs : repositories) : Prop :=
  Forall (λ e, entryResolver e = DefaultResolver
               ∧ ∀ l, entrySource e = VRef l → (l < length h)%nat) rs.

Section GetValue.

Variable resolverFn :
  fnid -> heap -> value -> list string -> value -> path -> outcome value.
Variable callbackFn :
  fnid -> heap -> value -> value -> path -> outcome value.

(** [getValue(propertyKey, defaultValue = undefined, parentKeyOrPath = [])];
    [None] is an omitted [parentKeyOrPath], and [undefined] given for it
    takes the parameter's default as well.  The macro that the call builds is
    the new object at the end of the store [h], in which the arguments
    live. *)
Definition getValue (fuel : nat) (h : heap) (rs : repositories)
  (propertyKey defaultValue : value) (parentKeyOrPath : option value)
  : constructed (outcome value) :=
  match CMClass.constructor h propertyKey defaultValue with
  | Constructed this =>
      let pth :=
        match parentKeyOrPath with
        | None | Some VUndef => []
        | Some (VRef l) =>
            match arrLen (objAt h l) with
            | Some n => arrayElements (objAt h l) n    (* Array.isArray *)
            | None => [VRef l]
            end
        | Some v => [v]
        end in
      Constructed
        (getCmValue resolverFn callbackFn fuel (h ++ [this]) rs
           (VRef (length h)) pth)
  | KeyRejected key => KeyRejected key
  | KeyTypeError => KeyTypeError
  end.

End GetValue.

(** Macros, a mapping and a nested source for the further examples. *)
Definition extraHeap : heap :=
  [ (* 0 *) mkObj None [("$$", VStr "k"); ("$callback", VFun 0);
                        ("$mandatory", VBool true)];
    (* 1 *) mkObj None [("k", VStr "first")];
    (* 2 *) mkObj None [("$$", VStr "a"); ("$default", VRef 3)];
    (* 3 *) mkObj None [("$$", VStr "b"); ("$mandatory", VBool true)];
    (* 4 *) mkObj None [("$$", VStr "a"); ("$default", VRef 4)];
    (* 5 *) mkObj None [("$$", VNum 123)];
    (* 6 *) mkObj None [("url", VRef 7); ("name", VStr "n")];
    (* 7 *) mkObj None [("$$", VStr "k")];
    (* 8 *) mkObj None [("b", VRef 9)];
    (* 9 *) mkObj None [("a", VNum 122)];
    (* 10 *) mkObj None [("pw", VRef 3); ("name", VStr "n")] ].

(** The sources [{add1x: 11}] and [{add2x: 21}] of the test-suite and an
    empty environment, registered at the end in that order. *)
Definition sourcesHeap : heap :=
  [ mkObj None [("add1x", VNum 11)];
    mkObj None [("add2x", VNum 21)];
    mkObj None [] ].

Definition sourcesChain : repositories :=
  register "added2" (VRef 1) DEFAULT_INDEX VUndef
    (register "added1" (VRef 0) DEFAULT_INDEX VUndef (reset (VRef 2))).

(** * Properties *)

(** ** The repository chain *)

Section ChainFacts.

Lemma unregister_names_sub name rs x :
  x ∈ getRepositoryNames (snd (unregister name rs)) →
  x ∈ getRepositoryNames rs.
Proof.
  induction rs as [|e rest IH]; simpl; [done|].
  destruct (String.eqb_spec (entryName e) name) as [->|Hne]; simpl.
  - intros Hx. rewrite elem_of_cons. by right.
  - destruct (unregister name rest) as [found rest'] eqn:Hu; simpl in *.
    rewrite !elem_of_cons. intros [->|Hx]; [by left|right; by apply IH].
Qed.

Lemma unregister_NoDup name rs :
  NoDup (getRepositoryNames rs) →
  NoDup (getRepositoryNames (snd (unregister name rs))).
Proof.
  induction rs as [|e rest IH]; simpl; [done|].
  rewrite NoDup_cons. intros [Hnotin Hnd].
  destruct (String.eqb_spec (entryName e) name) as [Heq|Hne]; simpl; [done|].
  specialize (IH Hnd).
  pose proof (unregister_names_sub name rest (entryName e)) as Hsub.
  destruct (unregister name rest) as [found rest'] eqn:Hu; simpl in *.
  apply NoDup_cons. split; [|done]. intros Hin. by apply Hnotin, Hsub.
Qed.

Lemma unregister_removes name rs :
  NoDup (getRepositoryNames rs) →
  name ∉ getRepositoryNames (snd (unregister name rs)).
Proof.
  induction rs as [|e rest IH]; simpl.
  - intros _. apply not_elem_of_nil.
  - rewrite NoDup_cons. intros [Hnotin Hnd].
    destruct (String.eqb_spec (entryName e) name) as [<-|Hne]; simpl; [done|].
    specialize (IH Hnd).
    destruct (unregister name rest) as [found rest'] eqn:Hu; simpl in *.
    rewrite elem_of_cons. intros [Heq|Hin]; [by apply Hne|by apply IH].
Qed.

Lemma spliceInsert_names index e rs :
  ∃ i, getRepositoryNames (spliceInsert index e rs)
       = (take i (getRepositoryNames rs)
            ++ entryName e :: drop i (getRepositoryNames rs))%list.
Proof.
  exists (spliceStart (length rs) index).
  unfold spliceInsert, getRepositoryNames.
  change (map entryName) with (fmap (M:=list) entryName).
  by rewrite fmap_app, fmap_cons, fmap_take, fmap_drop.
Qed.

Lemma NoDup_insert_middle (x : string) (l : list string) i :
  NoDup l → x ∉ l → NoDup (take i l ++ x :: drop i l)%list.
Proof.
  intros Hnd Hx.
  rewrite <- (take_drop i l) in Hnd, Hx.
  apply NoDup_app in Hnd as (H1 & H2 & H3).
  rewrite elem_of_app in Hx.
  apply NoDup_app. split; [done|]. split.
  - intros y Hy. rewrite elem_of_cons. intros [->|Hy'].
    + apply Hx. by left.
    + by apply (H2 y).
  - apply NoDup_cons. split; [|done]. intros Hin. apply Hx. by right.
Qed.

Lemma register_NoDup name repository index resolver rs :
  NoDup (getRepositoryNames rs) →
  NoDup (getRepositoryNames (register name repository index resolver rs)).
Proof.
  intros Hnd. unfold register.
  destruct (spliceInsert_names index
              (mkEntry name
                 (if truthy resolver then CustomResolver resolver
                  else DefaultResolver) repository)
              (snd (unregister name rs))) as [i ->].
  simpl. apply NoDup_insert_middle.
  - by apply unregister_NoDup.
  - by apply unregister_removes.
Qed.

Lemma reset_NoDup processEnv : NoDup (getRepositoryNames (reset processEnv)).
Proof. unfold reset. apply register_NoDup. simpl. apply NoDup_nil_2. Qed.

Lemma applyOp_NoDup processEnv rs op :
  NoDup (getRepositoryNames rs) →
  NoDup (getRepositoryNames (applyOp processEnv rs op)).
Proof.
  intros Hnd. destruct op; simpl.
  - by apply register_NoDup.
  - by apply unregister_NoDup.
  - apply (reset_NoDup processEnv).
Qed.

Lemma fold_applyOp_NoDup processEnv ops rs :
  NoDup (getRepositoryNames rs) →
  NoDup (getRepositoryNames (fold_left (applyOp processEnv) ops rs)).
Proof.
  revert rs. induction ops as [|op ops IH]; intros rs Hnd; simpl; [done|].
  apply IH. by apply applyOp_NoDup.
Qed.

Lemma runOps_NoDup processEnv ops :
  NoDup (getRepositoryNames (runOps processEnv ops)).
Proof. apply fold_applyOp_NoDup, reset_NoDup. Qed.

Lemma register_name_present name repository index resolver rs :
  name ∈ getRepositoryNames (register name repository index resolver rs).
Proof.
  unfold register.
  destruct (spliceInsert_names index
              (mkEntry name
                 (if truthy resolver then CustomResolver resolver
                  else DefaultResolver) repository)
              (snd (unregister name rs))) as [i ->].
  simpl. rewrite elem_of_app, elem_of_cons. right. by left.
Qed.

Lemma spliceInsert_elem index e rs x :
  x ∈ spliceInsert index e rs ↔ x = e ∨ x ∈ rs.
Proof.
  unfold spliceInsert. set (i := spliceStart (length rs) index).
  rewrite <- (take_drop i rs) at 3.
  rewrite !elem_of_app, elem_of_cons. tauto.
Qed.

Lemma register_entry_is_new name repository index resolver rs e :
  NoDup (getRepositoryNames rs) →
  e ∈ register name repository index resolver rs →
  entryName e = name →
  e = mkEntry name
        (if truthy resolver then CustomResolver resolver else DefaultResolver)
        repository.
Proof.
  intros Hnd Hin Hname. unfold register in Hin.
  apply spliceInsert_elem in Hin as [->|Hin]; [done|].
  exfalso. apply (unregister_removes name rs Hnd).
  unfold getRepositoryNames. subst name.
  change (map entryName) with (fmap (M:=list) entryName).
  by apply list_elem_of_fmap_2.
Qed.

End ChainFacts.

(** C8. After the constructor and any finite sequence of [register],
    [unregister] and [reset] calls the chain holds at most one entry per
    name; and a [register] on such a chain leaves exactly one entry of the
    registered name, the new one (the previous entry of that name is removed
    before the insertion). *)
Theorem chain_names_unique :
  ∀ (processEnv : value) (ops : list chainOp),
    NoDup (getRepositoryNames (runOps processEnv ops))
    ∧ ∀ name repository index resolver,
        let rs' := register name repository index resolver
                     (runOps processEnv ops) in
        NoDup (getRepositoryNames rs')
        ∧ name ∈ getRepositoryNames rs'
        ∧ ∀ e, e ∈ rs' → entryName e = name →
               entrySource e = repository.
Proof.
  intros processEnv ops.
  pose proof (runOps_NoDup processEnv ops) as Hnd.
  split; [exact Hnd|].
  intros name repository index resolver rs'. subst rs'.
  split; [by apply register_NoDup|].
  split; [apply register_name_present|].
  intros e Hin Hname.
  by rewrite (register_entry_is_new _ _ _ _ _ _ Hnd Hin Hname).
Qed.

(** ** Parent-dependent keys *)

Section ParentFacts.

Lemma pathAt_app_r (pre post : path) (i : nat) :
  pathAt (pre ++ post) (Z.of_nat (length pre + i)) = nth i post VUndef.
Proof.
  unfold pathAt.
  destruct (Z.ltb_spec (Z.of_nat (length pre + i)) 0) as [Hlt|_]; [lia|].
  rewrite Nat2Z.id, app_nth2 by lia. f_equal. lia.
Qed.

Lemma pathAt_middle (pre post : path) (x : value) :
  pathAt (pre ++ x :: post) (Z.of_nat (length pre)) = x.
Proof.
  replace (length pre) with (length pre + 0)%nat by lia.
  by rewrite pathAt_app_r.
Qed.

Lemma skipIndices_total (pth : path) (fuel : nat) (p : Z) :
  (Z.max (p + 2) 1 ≤ Z.of_nat fuel)%Z →
  ∃ p', skipIndices fuel pth p = Some p' ∧ (p' ≤ p)%Z.
Proof.
  revert p. induction fuel as [|fuel IH]; intros p Hf; [lia|].
  cbn [skipIndices]. destruct ((0 <=? p)%Z && isNumber (pathAt pth p)) eqn:Hc.
  - apply andb_true_iff in Hc as [Hp _]. apply Z.leb_le in Hp.
    destruct (IH (p - 1)%Z) as (p' & -> & Hle); [lia|].
    exists p'. split; [done|lia].
  - exists p. split; [done|lia].
Qed.

Lemma findParent_total (pth : path) (fuel : nat) (p : Z) :
  (p < Z.of_nat (length pth))%Z →
  (Z.max (p + 2) 1 ≤ Z.of_nat fuel)%Z →
  ∃ s, findParent fuel pth p = Some s.
Proof.
  revert p. induction fuel as [|fuel IH]; intros p Hp Hf; [lia|].
  cbn [findParent]. destruct (Z.leb_spec 0 p) as [H0|H0]; [|by eexists].
  destruct (skipIndices_total pth (S (length pth)) p) as (p' & Hs & Hle);
    [lia|].
  assert (∃ s, findParent fuel pth (p - 1) = Some s) as Hrec1
    by (apply IH; lia).
  assert (∃ s, findParent fuel pth (p' - 1) = Some s) as Hrec2
    by (apply IH; lia).
  destruct (pathAt pth p); try (rewrite Hs; exact Hrec2).
  destruct (p <? Z.of_nat (length pth) - 1)%Z; [by eexists|exact Hrec1].
Qed.

(** The search for the parent always ends with a result. *)
Lemma parentOf_total (pth : path) : ∃ s, parentOf pth = Some s.
Proof. apply findParent_total; lia. Qed.

Lemma expandKey_total (key : string) (pth : path) :
  ∃ key', expandKey key pth = Some key'.
Proof.
  unfold expandKey. destruct (startsWithIndicator key); [|by eexists].
  destruct (parentOf_total pth) as [s ->]. by eexists.
Qed.

(** A path that ends in two strings: the parent is the first of them. *)
Lemma parentOf_named (pre : path) (a own : string) :
  parentOf (pre ++ [VStr a; VStr own]) = Some a.
Proof.
  unfold parentOf. rewrite length_app. simpl length.
  replace (S (length pre + 2)) with (S (S (S (length pre)))) by lia.
  cbn [findParent].
  replace (Z.of_nat (length pre + 2) - 1)%Z
    with (Z.of_nat (length pre + 1)) by lia.
  destruct (Z.leb_spec 0 (Z.of_nat (length pre + 1))) as [_|?]; [|lia].
  rewrite pathAt_app_r. simpl nth. rewrite length_app. simpl length.
  destruct (Z.ltb_spec (Z.of_nat (length pre + 1))
              (Z.of_nat (length pre + 2) - 1)) as [?|_]; [lia|].
  replace (Z.of_nat (length pre + 1) - 1)%Z
    with (Z.of_nat (length pre)) by lia.
  destruct (Z.leb_spec 0 (Z.of_nat (length pre))) as [_|?]; [|lia].
  rewrite pathAt_middle.
  destruct (Z.ltb_spec (Z.of_nat (length pre))
              (Z.of_nat (length pre + 2) - 1)) as [_|?]; [done|lia].
Qed.

(** Skipping a run of indices at the end of [front ++ nums]. *)
Lemma skipIndices_run (front nums : path) (fuel k : nat) :
  Forall (λ v, isNumber v = true) nums →
  (k ≤ length nums)%nat → (k < fuel)%nat →
  isNumber (pathAt (front ++ nums) (Z.of_nat (length front) - 1)) = false →
  skipIndices fuel (front ++ nums) (Z.of_nat (length front + k) - 1)
  = Some (Z.of_nat (length front) - 1)%Z.
Proof.
  intros Hnums. revert fuel. induction k as [|k IH]; intros fuel Hk Hf Hfront.
  - destruct fuel as [|fuel]; [lia|]. cbn [skipIndices].
    replace (Z.of_nat (length front + 0) - 1)%Z
      with (Z.of_nat (length front) - 1)%Z by lia.
    rewrite Hfront. by rewrite andb_false_r.
  - destruct fuel as [|fuel]; [lia|]. cbn [skipIndices].
    replace (Z.of_nat (length front + S k) - 1)%Z
      with (Z.of_nat (length front + k)) by lia.
    rewrite pathAt_app_r.
    assert (isNumber (nth k nums VUndef) = true) as ->.
    { rewrite Forall_forall in Hnums. apply Hnums.
      apply list_elem_of_In, nth_In. lia. }
    destruct (Z.leb_spec 0 (Z.of_nat (length front + k))) as [_|?]; [|lia].
    simpl. replace (Z.of_nat (length front + k) - 1)%Z
      with (Z.of_nat (length front + k) - 1)%Z by lia.
    apply IH; [lia|lia|done].
Qed.

(** A path that ends in the indices of a sequence element: the indices and
    the name of the sequence are skipped, the parent is the string before
    that name. *)
Lemma parentOf_sequence_element (pre nums : path) (a : string) (arr : value) :
  nums ≠ [] →
  Forall (λ v, isNumber v = true) nums →
  isNumber arr = false →
  parentOf (pre ++ [VStr a; arr] ++ nums) = Some a.
Proof.
  intros Hne Hnums Harr.
  set (front := (pre ++ [VStr a; arr])%list).
  assert (length front = length pre + 2)%nat as Hlf
    by (unfold front; rewrite length_app; simpl; lia).
  assert (pathAt (front ++ nums) (Z.of_nat (length front) - 1) = arr) as Hlast.
  { unfold front. rewrite <- !app_assoc. simpl.
    replace (Z.of_nat (length (pre ++ [VStr a; arr])) - 1)%Z
      with (Z.of_nat (length (pre ++ [VStr a]))).
    2:{ rewrite !length_app. simpl. lia. }
    replace (pre ++ VStr a :: arr :: nums)%list
      with ((pre ++ [VStr a]) ++ arr :: nums)%list
      by (by rewrite <- app_assoc).
    apply pathAt_middle. }
  replace (pre ++ [VStr a; arr] ++ nums)%list with (front ++ nums)%list
    by (unfold front; by rewrite <- app_assoc).
  destruct nums as [|n0 nums0] eqn:Hn; [done|]. rewrite <- Hn in *.
  assert (0 < length nums)%nat as Hlen by (rewrite Hn; simpl; lia).
  unfold parentOf. rewrite length_app.
  remember (length front + length nums)%nat as len eqn:Hl.
  destruct len as [|len]; [lia|].
  cbn [findParent].
  destruct (Z.leb_spec 0 (Z.of_nat (S len) - 1)) as [_|?]; [|lia].
  replace (Z.of_nat (S len) - 1)%Z
    with (Z.of_nat (length front + (length nums - 1))) by lia.
  rewrite pathAt_app_r.
  assert (isNumber (nth (length nums - 1) nums VUndef) = true) as Hnum.
  { rewrite Forall_forall in Hnums. apply Hnums.
    apply list_elem_of_In, nth_In. lia. }
  replace (Z.of_nat (length front + (length nums - 1)))
    with (Z.of_nat (length front + length nums) - 1)%Z by lia.
  rewrite (skipIndices_run front nums _ (length nums));
    [|done|lia|rewrite length_app; lia|by rewrite Hlast].
  assert (findParent (S len) (front ++ nums) (Z.of_nat (length front) - 1 - 1)
          = Some a) as Hgoal.
  { cbn [findParent].
    replace (Z.of_nat (length front) - 1 - 1)%Z
      with (Z.of_nat (length pre)) by lia.
    destruct (Z.leb_spec 0 (Z.of_nat (length pre))) as [_|?]; [|lia].
    unfold front. rewrite <- !app_assoc. simpl. rewrite pathAt_middle.
    rewrite !length_app. simpl.
    destruct (Z.ltb_spec (Z.of_nat (length pre))
                (Z.of_nat (length pre + S (S (length nums))) - 1))
      as [_|?]; [done|lia]. }
  destruct (nth (length nums - 1) nums VUndef); try discriminate Hnum.
  exact Hgoal.
Qed.

End ParentFacts.

(** ** Resolution *)

Section ResolutionFacts.

Variable resolverFn :
  fnid -> heap -> value -> list string -> value -> path -> outcome value.
Variable callbackFn :
  fnid -> heap -> value -> value -> path -> outcome value.

Abbreviation callResolver := (callResolver resolverFn).
Abbreviation queryRepositories := (queryRepositories resolverFn).
Abbreviation applyCallback := (applyCallback callbackFn).
Abbreviation getCmValue := (getCmValue resolverFn callbackFn).
Abbreviation resolveMacro := (resolveMacro resolverFn callbackFn).
Abbreviation resolveValue := (resolveValue resolverFn callbackFn).
Abbreviation lookupWithDefault := (lookupWithDefault resolverFn).

Lemma macroKey_hasOwn h l key :
  macroKey h l key → hasOwnProperty h (VRef l) CM.KEY_KEY = true.
Proof. intros [H _]. unfold hasOwnProperty, hasOwn. by rewrite H. Qed.

Lemma macroKey_getv h l key :
  macroKey h l key → getv h (VRef l) CM.KEY_KEY = Ok (VStr key).
Proof. intros [H _]. unfold getv, getOwn. by rewrite H. Qed.

Lemma getCmValue_S fuel h rs cm pth :
  getCmValue (S fuel) h rs cm pth
  = if truthy cm && hasOwnProperty h cm CM.KEY_KEY then
      searchKey ← getv h cm CM.KEY_KEY;
      match searchKey with
      | VStr key =>
          if negb (truthy searchKey)
          then Throw (CuError (InvalidMacroKey searchKey pth))
          else match expandKey key pth with
               | None => OutOfFuel
               | Some key' =>
                   resolveMacro (getCmValue fuel h rs) h rs cm pth key'
               end
      | _ => Throw (CuError (InvalidMacroKey searchKey pth))
      end
    else Ok cm.
Proof. reflexivity. Qed.

(** A value that is not a macro passes through. *)
Lemma getCmValue_pass_through fuel h rs (v : value) pth :
  hasOwnProperty h v CM.KEY_KEY = false →
  getCmValue (S fuel) h rs v pth = Ok v.
Proof. intros H. rewrite getCmValue_S. by rewrite H, andb_false_r. Qed.

(** On a macro, [getCmValue] expands the key and runs the steps. *)
Lemma getCmValue_macro fuel h rs l pth key key' :
  macroKey h l key → expandKey key pth = Some key' →
  getCmValue (S fuel) h rs (VRef l) pth
  = resolveMacro (getCmValue fuel h rs) h rs (VRef l) pth key'.
Proof.
  intros Hm Hk. rewrite getCmValue_S.
  rewrite (macroKey_hasOwn _ _ _ Hm), (macroKey_getv _ _ _ Hm).
  destruct Hm as [_ Hne]. cbn.
  destruct (String.eqb_spec key EmptyString) as [->|_]; [done|]. cbn.
  by rewrite Hk.
Qed.

(** The loop stops at the first result that is not [undefined]; the entries
    behind it play no part. *)
Lemma queryRepositories_first h pre e post split cm pth v :
  Forall (λ e', callResolver h e' split cm pth = Ok VUndef) pre →
  callResolver h e split cm pth = Ok v → v ≠ VUndef →
  queryRepositories h (pre ++ e :: post) split cm pth = Ok v.
Proof.
  intros Hpre He Hv. induction Hpre as [|e' pre' He' _ IH]; simpl.
  - rewrite He. cbn. by destruct v.
  - rewrite He'. cbn. exact IH.
Qed.

Lemma queryRepositories_none h rs split cm pth :
  Forall (λ e', callResolver h e' split cm pth = Ok VUndef) rs →
  queryRepositories h rs split cm pth = Ok VUndef.
Proof.
  induction 1 as [|e' rs' He' _ IH]; simpl; [done|].
  rewrite He'. cbn. exact IH.
Qed.

(** An error of a resolver ends the lookup before the entries behind it are
    asked. *)
Lemma queryRepositories_throw h pre e post split cm pth err :
  Forall (λ e', callResolver h e' split cm pth = Ok VUndef) pre →
  callResolver h e split cm pth = Throw err →
  queryRepositories h (pre ++ e :: post) split cm pth = Throw err.
Proof.
  intros Hpre He. induction Hpre as [|e' pre' He' _ IH]; simpl.
  - by rewrite He.
  - rewrite He'. cbn. exact IH.
Qed.

(** A present value that is not [null] skips the default step. *)
Lemma resolveDefault_present rec h cm pth v :
  isNullish v = false → resolveDefault rec h cm pth v = Ok v.
Proof. intros H. unfold resolveDefault. by rewrite H. Qed.

Lemma resolveDefault_declared rec h l pth v d :
  isNullish v = true →
  lookupProp (props (objAt h l)) CM.DEFAULT_KEY = Some d →
  resolveDefault rec h (VRef l) pth v = rec d (pth ++ [VStr "CM.DEFAULT_KEY"]).
Proof.
  intros Hv Hd. unfold resolveDefault, hasOwnProperty, hasOwn, getv, getOwn.
  by rewrite Hv, Hd.
Qed.

Lemma resolveDefault_undeclared rec h l pth v :
  lookupProp (props (objAt h l)) CM.DEFAULT_KEY = None →
  resolveDefault rec h (VRef l) pth v = Ok v.
Proof.
  intros Hd. unfold resolveDefault, hasOwnProperty, hasOwn.
  by rewrite Hd, andb_false_r.
Qed.

Lemma applyCallback_none h cb v cm pth :
  truthy cb = false → applyCallback h cb v cm pth = Ok v.
Proof. intros H. unfold applyCallback. by rewrite H. Qed.

(** The steps after a lookup that gave [v]. *)
Lemma resolveMacro_after_lookup rec h rs l pth key' v :
  queryRepositories h rs (split_slash key') (VRef l) pth = Ok v →
  resolveMacro rec h rs (VRef l) pth key'
  = (r ← resolveDefault rec h (VRef l) pth v;
     r' ← applyCallback h (macroProp h l CM.CALLBACK_KEY) r (VRef l) pth;
     checkMandatory (macroProp h l CM.MANDATORY_KEY) r' pth).
Proof.
  intros Hq.
  unfold resolveMacro, resolveValue, lookupWithDefault.
  rewrite Hq. cbn. by destruct (resolveDefault rec h (VRef l) pth v).
Qed.

Lemma checkMandatory_present mandatory v pth :
  isNullish v = false → checkMandatory mandatory v pth = Ok v.
Proof. intros H. unfold checkMandatory. by rewrite H. Qed.

(** A lookup that found a value other than [null]: the value goes to the
    callback step as it is, and is the result when no callback is set. *)
Lemma getCmValue_found fuel h pre e post l pth key key' v :
  macroKey h l key → expandKey key pth = Some key' →
  Forall (λ e', callResolver h e' (split_slash key') (VRef l) pth = Ok VUndef)
    pre →
  callResolver h e (split_slash key') (VRef l) pth = Ok v →
  isNullish v = false →
  getCmValue (S fuel) h (pre ++ e :: post) (VRef l) pth
  = (r ← applyCallback h (macroProp h l CM.CALLBACK_KEY) v (VRef l) pth;
     checkMandatory (macroProp h l CM.MANDATORY_KEY) r pth)
  ∧ (truthy (macroProp h l CM.CALLBACK_KEY) = false →
     getCmValue (S fuel) h (pre ++ e :: post) (VRef l) pth = Ok v).
Proof.
  intros Hm Hk Hpre He Hv.
  assert (v ≠ VUndef) as Hdef by (by intros ->).
  pose proof (queryRepositories_first h pre e post _ _ _ v Hpre He Hdef) as Hq.
  rewrite (getCmValue_macro _ _ _ _ _ _ _ Hm Hk).
  rewrite (resolveMacro_after_lookup _ _ _ _ _ _ _ Hq).
  rewrite (resolveDefault_present _ _ _ _ _ Hv). cbn.
  split; [done|].
  intros Hcb. rewrite (applyCallback_none _ _ _ _ _ Hcb). cbn.
  by apply checkMandatory_present.
Qed.


Lemma resolveMacro_after_default rec h rs l pth key' r :
  lookupWithDefault rec h rs (VRef l) pth key' = Ok r →
  resolveMacro rec h rs (VRef l) pth key'
  = (r' ← applyCallback h (macroProp h l CM.CALLBACK_KEY) r (VRef l) pth;
     checkMandatory (macroProp h l CM.MANDATORY_KEY) r' pth).
Proof.
  intros Hq. unfold resolveMacro, resolveValue. rewrite Hq. reflexivity.
Qed.

Lemma resolveMacro_after_value rec h rs l pth key' r :
  resolveValue rec h rs (VRef l) pth key' = Ok r →
  resolveMacro rec h rs (VRef l) pth key'
  = checkMandatory (macroProp h l CM.MANDATORY_KEY) r pth.
Proof. intros Hq. unfold resolveMacro. by rewrite Hq. Qed.

Lemma lookupWithDefault_after_lookup rec h rs cm pth key' v :
  queryRepositories h rs (split_slash key') cm pth = Ok v →
  lookupWithDefault rec h rs cm pth key' = resolveDefault rec h cm pth v.
Proof. intros Hq. unfold lookupWithDefault. by rewrite Hq. Qed.

Lemma falsyPresent_not_nullish v : falsyPresent v → isNullish v = false.
Proof. by intros [->|[->| ->]]. Qed.

Lemma applyCallback_invalid h cb v cm pth :
  truthy cb = true → (∀ f, cb ≠ VFun f) →
  applyCallback h cb v cm pth = Throw (CuError InvalidCallback).
Proof.
  intros Ht Hf. unfold applyCallback, CM.checkCallback. rewrite Ht. cbn.
  destruct cb; try done. by destruct (Hf f).
Qed.

(** The default resolver on a key without "/" that the source defines with
    a value other than [undefined] and [null]. *)
Lemma callResolver_default_defined h name src k v cm pth :
  split_slash k = [k] →
  lookupProp (props (objAt h src)) k = Some v → isNullish v = false →
  callResolver h (mkEntry name DefaultResolver (VRef src)) (split_slash k) cm pth
  = Ok v.
Proof.
  intros Hk Hv Hn. rewrite Hk. unfold callResolver. simpl.
  unfold getOwn. rewrite Hv. cbn. by rewrite Hn.
Qed.

(** C1 (as amended). On every macro node the repositories are asked in
    chain order and the lookup yields the first resolver result that is not
    [undefined], whatever entries follow in the chain (an entry that throws
    before a value is found ends the lookup there); that value, unless it is
    [null], goes unchanged to the callback step and is returned as it is by
    [getCmValue] when no callback is declared.  In particular, when the
    sources at index 0 and index 1 both define the key, the one at index 0
    with a value other than [undefined] and [null], the value of the index-0
    source is returned. *)
Theorem repositories_queried_in_order fuel h pre e post l pth key key' v :
  macroKey h l key → expandKey key pth = Some key' →
  Forall (λ e', callResolver h e' (split_slash key') (VRef l) pth = Ok VUndef)
    pre →
  callResolver h e (split_slash key') (VRef l) pth = Ok v →
  v ≠ VUndef →
  queryRepositories h (pre ++ e :: post) (split_slash key') (VRef l) pth = Ok v
  ∧ (v ≠ VNull →
     getCmValue (S fuel) h (pre ++ e :: post) (VRef l) pth
     = (r ← applyCallback h (macroProp h l CM.CALLBACK_KEY) v (VRef l) pth;
        checkMandatory (macroProp h l CM.MANDATORY_KEY) r pth))
  ∧ (v ≠ VNull → truthy (macroProp h l CM.CALLBACK_KEY) = false →
     getCmValue (S fuel) h (pre ++ e :: post) (VRef l) pth = Ok v)
  ∧ (∀ e2 post2 err,
       callResolver h e2 (split_slash key') (VRef l) pth = Throw err →
       queryRepositories h (pre ++ e2 :: post2) (split_slash key') (VRef l) pth
       = Throw err)
  ∧ (∀ name0 src0 v0 name1 src1 v1 rest,
       split_slash key' = [key'] →
       lookupProp (props (objAt h src0)) key' = Some v0 →
       isNullish v0 = false →
       lookupProp (props (objAt h src1)) key' = Some v1 →
       truthy (macroProp h l CM.CALLBACK_KEY) = false →
       getCmValue (S fuel) h
         (mkEntry name0 DefaultResolver (VRef src0)
            :: mkEntry name1 DefaultResolver (VRef src1) :: rest)
         (VRef l) pth
       = Ok v0).
Proof.
  intros Hm Hk Hpre He Hv.
  split; [by apply queryRepositories_first|].
  assert (v ≠ VNull → isNullish v = false) as Hn by (by destruct v).
  split; [|split; [|split]].
  - intros Hnn.
    by destruct (getCmValue_found fuel h pre e post l pth key key' v
                   Hm Hk Hpre He (Hn Hnn)).
  - intros Hnn.
    by destruct (getCmValue_found fuel h pre e post l pth key key' v
                   Hm Hk Hpre He (Hn Hnn)).
  - intros e2 post2 err He2. by apply queryRepositories_throw.
  - intros name0 src0 v0 name1 src1 v1 rest Hsplit Hv0 Hn0 Hv1 Hcb.
    pose proof (callResolver_default_defined h name0 src0 key' v0 (VRef l) pth
                  Hsplit Hv0 Hn0) as He0.
    destruct (getCmValue_found fuel h []
                (mkEntry name0 DefaultResolver (VRef src0))
                (mkEntry name1 DefaultResolver (VRef src1) :: rest)
                l pth key key' v0 Hm Hk ltac:(constructor) He0 Hn0) as [_ H2].
    by apply H2.
Qed.

(** C2 (as amended). When the first resolver result that is not
    [undefined] is one of the falsy values [0], the empty string, [false], it
    ends the search, the default step leaves it alone whatever [$default]
    holds, and the mandatory check lets it through: [getCmValue] hands it to
    the callback step unchanged and returns it as it is when no callback is
    declared. *)
Theorem falsy_value_is_a_result fuel h pre e post l pth key key' v :
  macroKey h l key → expandKey key pth = Some key' →
  Forall (λ e', callResolver h e' (split_slash key') (VRef l) pth = Ok VUndef)
    pre →
  callResolver h e (split_slash key') (VRef l) pth = Ok v →
  falsyPresent v →
  queryRepositories h (pre ++ e :: post) (split_slash key') (VRef l) pth = Ok v
  ∧ (∀ rec, lookupWithDefault rec h (pre ++ e :: post) (VRef l) pth key' = Ok v)
  ∧ getCmValue (S fuel) h (pre ++ e :: post) (VRef l) pth
    = (r ← applyCallback h (macroProp h l CM.CALLBACK_KEY) v (VRef l) pth;
       checkMandatory (macroProp h l CM.MANDATORY_KEY) r pth)
  ∧ (truthy (macroProp h l CM.CALLBACK_KEY) = false →
     getCmValue (S fuel) h (pre ++ e :: post) (VRef l) pth = Ok v).
Proof.
  intros Hm Hk Hpre He Hv.
  pose proof (falsyPresent_not_nullish v Hv) as Hn.
  assert (v ≠ VUndef) as Hdef by (by intros ->).
  pose proof (queryRepositories_first h pre e post _ _ _ v Hpre He Hdef) as Hq.
  split; [done|]. split.
  - intros rec. rewrite (lookupWithDefault_after_lookup _ _ _ _ _ _ _ Hq).
    by apply resolveDefault_present.
  - by apply (getCmValue_found fuel h pre e post l pth key key' v).
Qed.


Lemma getCmValue_default_step fuel h rs l pth key key' v d :
  macroKey h l key → expandKey key pth = Some key' →
  queryRepositories h rs (split_slash key') (VRef l) pth = Ok v →
  isNullish v = true →
  lookupProp (props (objAt h l)) CM.DEFAULT_KEY = Some d →
  getCmValue (S fuel) h rs (VRef l) pth
  = (r ← getCmValue fuel h rs d (pth ++ [VStr "CM.DEFAULT_KEY"]);
     r' ← applyCallback h (macroProp h l CM.CALLBACK_KEY) r (VRef l) pth;
     checkMandatory (macroProp h l CM.MANDATORY_KEY) r' pth).
Proof.
  intros Hm Hk Hq Hv Hd.
  rewrite (getCmValue_macro _ _ _ _ _ _ _ Hm Hk).
  rewrite (resolveMacro_after_lookup _ _ _ _ _ _ _ Hq).
  by rewrite (resolveDefault_declared _ _ _ _ _ _ Hv Hd).
Qed.

(** C5 (as amended). When the lookup of a macro yields [undefined] or
    [null] and the macro has a [$default], the default step is [getCmValue]
    on the default value with the path of the macro extended by the marker
    "CM.DEFAULT_KEY"; its result is what the callback and mandatory steps then
    see, so a default that is a macro is resolved in turn.  The macro
    [{"$$":"missing1","$default":{"$$":"missing2","$default":"X"}}] resolves
    to "X" on every chain that has neither key. *)
Theorem default_is_resolved_recursively fuel h rs l pth key key' v d :
  macroKey h l key → expandKey key pth = Some key' →
  queryRepositories h rs (split_slash key') (VRef l) pth = Ok v →
  isNullish v = true →
  lookupProp (props (objAt h l)) CM.DEFAULT_KEY = Some d →
  lookupWithDefault (getCmValue fuel h rs) h rs (VRef l) pth key'
  = getCmValue fuel h rs d (pth ++ [VStr "CM.DEFAULT_KEY"])
  ∧ getCmValue (S fuel) h rs (VRef l) pth
    = (r ← getCmValue fuel h rs d (pth ++ [VStr "CM.DEFAULT_KEY"]);
       r' ← applyCallback h (macroProp h l CM.CALLBACK_KEY) r (VRef l) pth;
       checkMandatory (macroProp h l CM.MANDATORY_KEY) r' pth)
  ∧ (Forall (λ e, callResolver defaultChainHeap e ["missing1"] (VRef 0) pth
                  = Ok VUndef) rs →
     Forall (λ e, callResolver defaultChainHeap e ["missing2"] (VRef 1)
                    (pth ++ [VStr "CM.DEFAULT_KEY"]) = Ok VUndef) rs →
     getCmValue (3 + fuel) defaultChainHeap rs (VRef 0) pth = Ok (VStr "X")).
Proof.
  intros Hm Hk Hq Hv Hd. split; [|split].
  - rewrite (lookupWithDefault_after_lookup _ _ _ _ _ _ _ Hq).
    by apply resolveDefault_declared.
  - by apply (getCmValue_default_step fuel h rs l pth key key' v d).
  - intros H1 H2.
    assert (macroKey defaultChainHeap 0 "missing1") as Hm1 by (by split).
    assert (macroKey defaultChainHeap 1 "missing2") as Hm2 by (by split).
    change (3 + fuel)%nat with (S (S (S fuel))).
    rewrite (getCmValue_default_step _ _ _ 0 _ "missing1" "missing1"
               VUndef (VRef 1) Hm1 eq_refl
               (queryRepositories_none _ _ _ _ _ H1) eq_refl eq_refl).
    rewrite (getCmValue_default_step _ _ _ 1 _ "missing2" "missing2"
               VUndef (VStr "X") Hm2 eq_refl
               (queryRepositories_none _ _ _ _ _ H2) eq_refl eq_refl).
    reflexivity.
Qed.

(** C6. When the result of a macro after the repository lookup, the default
    step and the callback is [undefined] or [null]: with a truthy
    [$mandatory] [getCmValue] throws the CuError "Property <path> is
    mandatory" for the path it was called with; without it [getCmValue]
    returns that absent result.  In particular a mandatory macro without
    default and callback throws on a chain that has no value for its key. *)
Theorem mandatory_is_enforced fuel h rs l pth key key' r :
  macroKey h l key → expandKey key pth = Some key' →
  resolveValue (getCmValue fuel h rs) h rs (VRef l) pth key' = Ok r →
  isNullish r = true →
  (truthy (macroProp h l CM.MANDATORY_KEY) = true →
   getCmValue (S fuel) h rs (VRef l) pth
   = Throw (CuError (MandatoryValueMissing pth)))
  ∧ (truthy (macroProp h l CM.MANDATORY_KEY) = false →
     getCmValue (S fuel) h rs (VRef l) pth = Ok r)
  ∧ (Forall (λ e, callResolver h e (split_slash key') (VRef l) pth = Ok VUndef)
       rs →
     lookupProp (props (objAt h l)) CM.DEFAULT_KEY = None →
     truthy (macroProp h l CM.CALLBACK_KEY) = false →
     truthy (macroProp h l CM.MANDATORY_KEY) = true →
     getCmValue (S fuel) h rs (VRef l) pth
     = Throw (CuError (MandatoryValueMissing pth))).
Proof.
  intros Hm Hk Hr Hn.
  rewrite (getCmValue_macro _ _ _ _ _ _ _ Hm Hk).
  split; [|split].
  - intros Hmand. rewrite (resolveMacro_after_value _ _ _ _ _ _ _ Hr).
    unfold checkMandatory. by rewrite Hn, Hmand.
  - intros Hmand. rewrite (resolveMacro_after_value _ _ _ _ _ _ _ Hr).
    unfold checkMandatory. by rewrite Hn, Hmand.
  - intros Hrs Hd Hcb Hmand.
    rewrite (resolveMacro_after_lookup _ _ _ _ _ _ _
               (queryRepositories_none _ _ _ _ _ Hrs)).
    rewrite (resolveDefault_undeclared _ _ _ _ _ Hd). cbn.
    rewrite (applyCallback_none _ _ _ _ _ Hcb). cbn.
    unfold checkMandatory. by rewrite Hmand.
Qed.

(** C7 (as amended). A macro whose [$callback] is truthy and not a function
    makes [getCmValue] throw the CuError "The callback-property must be a
    function" once the lookup and the default step have produced a result; a
    falsy [$callback] counts as no callback and the result of the lookup and
    default step goes straight to the mandatory check. *)
Theorem invalid_callback_raises fuel h rs l pth key key' r :
  macroKey h l key → expandKey key pth = Some key' →
  lookupWithDefault (getCmValue fuel h rs) h rs (VRef l) pth key' = Ok r →
  (truthy (macroProp h l CM.CALLBACK_KEY) = true →
   (∀ f, macroProp h l CM.CALLBACK_KEY ≠ VFun f) →
   getCmValue (S fuel) h rs (VRef l) pth = Throw (CuError InvalidCallback))
  ∧ (truthy (macroProp h l CM.CALLBACK_KEY) = false →
     getCmValue (S fuel) h rs (VRef l) pth
     = checkMandatory (macroProp h l CM.MANDATORY_KEY) r pth).
Proof.
  intros Hm Hk Hr.
  rewrite (getCmValue_macro _ _ _ _ _ _ _ Hm Hk).
  rewrite (resolveMacro_after_default _ _ _ _ _ _ _ Hr).
  split.
  - intros Ht Hf. by rewrite (applyCallback_invalid _ _ _ _ _ Ht Hf).
  - intros Hcb. by rewrite (applyCallback_none _ _ _ _ _ Hcb).
Qed.


End ResolutionFacts.

(** ** Parent-dependent expansion in [getCmValue] *)

Section ParentExpansion.

Variable resolverFn :
  fnid -> heap -> value -> list string -> value -> path -> outcome value.
Variable callbackFn :
  fnid -> heap -> value -> value -> path -> outcome value.

Lemma expandKey_indicator (rest : string) (pth : path) (parent : string) :
  parentOf pth = Some parent →
  expandKey (String "?" rest) pth = Some (parent ++ rest)%string.
Proof.
  intros H. unfold expandKey.
  change (startsWithIndicator (String "?" rest)) with true.
  by rewrite H.
Qed.

Lemma nearestNamedAncestor_named (pre : path) (a own : string) :
  nearestNamedAncestor (pre ++ [VStr a; VStr own]) = a.
Proof.
  unfold nearestNamedAncestor. rewrite rev_app_distr. reflexivity.
Qed.

(** C3 (as amended). For a macro whose key starts with "?", the marker is
    replaced by a segment of the path: on a path that ends in two strings,
    the string before the node's own entry, which is there the nearest named
    ancestor; for a sequence element, whose path ends in indices, the string
    before the name of the sequence (the indices and that name are skipped
    together).  The macro is then looked up under the expanded key; at path
    ["branchA","field"] the key "?_SUFFIX" becomes "branchA_SUFFIX". *)
Theorem parent_dependent_expansion (rest : string) (pre : path) (a : string) :
  (∀ own,
     expandKey (String "?" rest) (pre ++ [VStr a; VStr own])
     = Some (a ++ rest)%string
     ∧ nearestNamedAncestor (pre ++ [VStr a; VStr own]) = a)
  ∧ (∀ arr nums,
       nums ≠ [] → Forall (λ v, isNumber v = true) nums →
       isNumber arr = false →
       expandKey (String "?" rest) (pre ++ [VStr a; arr] ++ nums)
       = Some (a ++ rest)%string)
  ∧ (∀ fuel h rs l own,
       macroKey h l (String "?" rest) →
       getCmValue resolverFn callbackFn (S fuel) h rs (VRef l)
         (pre ++ [VStr a; VStr own])
       = resolveMacro resolverFn callbackFn
           (getCmValue resolverFn callbackFn fuel h rs) h rs (VRef l)
           (pre ++ [VStr a; VStr own]) (a ++ rest)%string)
  ∧ expandKey "?_SUFFIX" [VStr "branchA"; VStr "field"] = Some "branchA_SUFFIX".
Proof.
  split; [|split; [|split]].
  - intros own. split.
    + apply expandKey_indicator, parentOf_named.
    + apply nearestNamedAncestor_named.
  - intros arr nums Hne Hnums Harr.
    by apply expandKey_indicator, parentOf_sequence_element.
  - intros fuel h rs l own Hm.
    apply (getCmValue_macro resolverFn callbackFn fuel h rs l _
             (String "?" rest)); [done|].
    apply expandKey_indicator, parentOf_named.
  - reflexivity.
Qed.

End ParentExpansion.

(** Where C3 as stated fails: for an element of a sequence the marker is not
    replaced by the nearest named segment before the node's own entry (the
    name of the sequence) but by the one before it; and below a sequence
    element the name of the sequence is passed over as well. *)
Lemma parent_is_not_nearest_named_ancestor :
  expandKey "?_URL" [VStr "branchList"; VStr "listResult"; VNum 2]
  = Some "branchList_URL"
  ∧ nearestNamedAncestor [VStr "branchList"; VStr "listResult"; VNum 2]
    = "listResult"
  ∧ expandKey "?_URL" [VStr "a"; VNum 0; VStr "field"] = Some "_URL"
  ∧ nearestNamedAncestor [VStr "a"; VNum 0; VStr "field"] = "a".
Proof. repeat split; reflexivity. Qed.

(** Where C7 as stated fails: a macro that declares the callback [0], which is
    not a function, resolves without an error. *)
Lemma falsy_callback_is_ignored :
  hasOwnProperty exampleHeap (VRef 8) CM.CALLBACK_KEY = true
  ∧ macroProp exampleHeap 8 CM.CALLBACK_KEY = VNum 0
  ∧ getCmValue exampleResolverFn exampleCallbackFn 1 exampleHeap
      [sourceEmpty; sourceFirst] (VRef 8) [] = Ok VUndef.
Proof. repeat split; reflexivity. Qed.

(** Where C1 as stated fails: two sources define the key, the one at index 0
    with [null], and the value of the source at index 1 is returned; with a
    callback the first resolver result is not what [getCmValue] returns; and a
    first result [null] gives way to the default. *)
Lemma first_result_is_not_always_returned :
  lookupProp (props (objAt priorityHeap 1)) "k" = Some VNull
  ∧ lookupProp (props (objAt priorityHeap 2)) "k" = Some (VStr "second")
  ∧ getCmValue exampleResolverFn exampleCallbackFn 1 priorityHeap
      [mkEntry "first" DefaultResolver (VRef 1);
       mkEntry "second" DefaultResolver (VRef 2)] (VRef 0) []
    = Ok (VStr "second")
  ∧ queryRepositories exampleResolverFn priorityHeap
      [mkEntry "second" DefaultResolver (VRef 2)] ["k"] (VRef 3) []
    = Ok (VStr "second")
  ∧ getCmValue exampleResolverFn replacingCallbackFn 1 priorityHeap
      [mkEntry "second" DefaultResolver (VRef 2)] (VRef 3) []
    = Ok (VStr "callback")
  ∧ queryRepositories exampleResolverFn priorityHeap
      [sourceNull; mkEntry "second" DefaultResolver (VRef 2)] ["k"] (VRef 5) []
    = Ok VNull
  ∧ getCmValue exampleResolverFn exampleCallbackFn 2 priorityHeap
      [sourceNull; mkEntry "second" DefaultResolver (VRef 2)] (VRef 5) []
    = Ok (VStr "d").
Proof. repeat split; reflexivity. Qed.

(** Where C2 as stated fails: the source defines the key with [0], which ends
    the search, and the macro's callback returns something else, which is what
    [getCmValue] returns. *)
Lemma callback_replaces_falsy_value :
  lookupProp (props (objAt priorityHeap 4)) "k" = Some (VNum 0)
  ∧ queryRepositories exampleResolverFn priorityHeap
      [mkEntry "zero" DefaultResolver (VRef 4)] ["k"] (VRef 3) []
    = Ok (VNum 0)
  ∧ getCmValue exampleResolverFn replacingCallbackFn 1 priorityHeap
      [mkEntry "zero" DefaultResolver (VRef 4)] (VRef 3) []
    = Ok (VStr "callback").
Proof. repeat split; reflexivity. Qed.

(** Where C5 as stated fails: the default is not resolved with the path of
    the macro but with that path and the marker behind it.  A default with a
    parent-dependent key is therefore looked up under the macro's own property
    name, where the macro's path gives the name of its parent; and the error
    of a mandatory default names the marker. *)
Lemma default_path_has_the_marker :
  getCmValue exampleResolverFn exampleCallbackFn 2 defaultParentHeap
    [mkEntry "src" DefaultResolver (VRef 2)] (VRef 0)
    [VStr "branchA"; VStr "field"]
  = Ok (VStr "own-key")
  ∧ getCmValue exampleResolverFn exampleCallbackFn 1 defaultParentHeap
      [mkEntry "src" DefaultResolver (VRef 2)] (VRef 1)
      [VStr "branchA"; VStr "field"]
    = Ok (VStr "parent")
  ∧ getCmValue exampleResolverFn exampleCallbackFn 2 defaultParentHeap
      [mkEntry "src" DefaultResolver (VRef 2)] (VRef 3) [VStr "prop"]
    = Throw (CuError (MandatoryValueMissing
                        [VStr "prop"; VStr "CM.DEFAULT_KEY"]))
  ∧ getCmValue exampleResolverFn exampleCallbackFn 1 defaultParentHeap
      [mkEntry "src" DefaultResolver (VRef 2)] (VRef 4) [VStr "prop"]
    = Throw (CuError (MandatoryValueMissing [VStr "prop"])).
Proof. repeat split; reflexivity. Qed.

(** ** The theorems at concrete macros *)

Lemma repositories_queried_in_order_witness :
  getCmValue exampleResolverFn exampleCallbackFn 1 exampleHeap
    [sourceFirst; sourceSecond] (VRef 0) [] = Ok (VStr "first").
Proof.
  refine (proj2 (proj2 (proj2 (proj2 (repositories_queried_in_order
            exampleResolverFn exampleCallbackFn 0 exampleHeap
            [] sourceFirst [sourceSecond] 0 [] "k" "k" (VStr "first")
            _ _ _ _ _)))) "first" 1 (VStr "first") "second" 2 (VStr "second") []
            _ _ _ _ _).
  - split; [reflexivity|discriminate].
  - reflexivity.
  - constructor.
  - reflexivity.
  - discriminate.
  - reflexivity.
  - reflexivity.
  - reflexivity.
  - reflexivity.
  - reflexivity.
Defined.

Lemma falsy_value_is_a_result_witness :
  getCmValue exampleResolverFn exampleCallbackFn 1 exampleHeap
    [sourceEmpty; sourceZero; sourceFirst] (VRef 4) [] = Ok (VNum 0).
Proof.
  refine (proj2 (proj2 (proj2 (falsy_value_is_a_result
            exampleResolverFn exampleCallbackFn 0 exampleHeap
            [sourceEmpty] sourceZero [sourceFirst] 4 [] "k" "k" (VNum 0)
            _ _ _ _ _))) _).
  - split; [reflexivity|discriminate].
  - reflexivity.
  - constructor; [reflexivity|constructor].
  - reflexivity.
  - left. reflexivity.
  - reflexivity.
Defined.

Lemma default_is_resolved_recursively_witness :
  getCmValue exampleResolverFn exampleCallbackFn 3 defaultChainHeap
    [mkEntry "env" DefaultResolver (VRef 2)] (VRef 0) [] = Ok (VStr "X").
Proof.
  refine (proj2 (proj2 (default_is_resolved_recursively
            exampleResolverFn exampleCallbackFn 0 defaultChainHeap
            [mkEntry "env" DefaultResolver (VRef 2)] 0 []
            "missing1" "missing1" VUndef (VRef 1) _ _ _ _ _)) _ _).
  - split; [reflexivity|discriminate].
  - reflexivity.
  - reflexivity.
  - reflexivity.
  - reflexivity.
  - constructor; [reflexivity|constructor].
  - constructor; [reflexivity|constructor].
Defined.

Lemma mandatory_is_enforced_witness :
  getCmValue exampleResolverFn exampleCallbackFn 1 exampleHeap
    [sourceEmpty; sourceFirst] (VRef 6) [VStr "parent"]
  = Throw (CuError (MandatoryValueMissing [VStr "parent"])).
Proof.
  refine (proj1 (mandatory_is_enforced
            exampleResolverFn exampleCallbackFn 0 exampleHeap
            [sourceEmpty; sourceFirst] 6 [VStr "parent"]
            "missing" "missing" VUndef _ _ _ _) _).
  - split; [reflexivity|discriminate].
  - reflexivity.
  - reflexivity.
  - reflexivity.
  - reflexivity.
Defined.

Lemma invalid_callback_raises_witness :
  getCmValue exampleResolverFn exampleCallbackFn 1 exampleHeap
    [sourceEmpty; sourceFirst] (VRef 7) []
  = Throw (CuError InvalidCallback).
Proof.
  refine (proj1 (invalid_callback_raises
            exampleResolverFn exampleCallbackFn 0 exampleHeap
            [sourceEmpty; sourceFirst] 7 [] "xxx" "xxx" VUndef _ _ _) _ _).
  - split; [reflexivity|discriminate].
  - reflexivity.
  - reflexivity.
  - reflexivity.
  - intros f. discriminate.
Defined.


Lemma parent_dependent_expansion_witness :
  expandKey "?_URL" [VStr "branchList"; VStr "listResult"; VNum 2]
  = Some "branchList_URL"
  ∧ getCmValue exampleResolverFn exampleCallbackFn 1 exampleHeap
      [mkEntry "src" DefaultResolver (VRef 10)] (VRef 9)
      [VStr "branchA"; VStr "field"] = Ok (VStr "found").
Proof.
  pose proof (parent_dependent_expansion exampleResolverFn exampleCallbackFn
                "_URL" [] "branchList") as (_ & Hseq & _).
  pose proof (parent_dependent_expansion exampleResolverFn exampleCallbackFn
                "_SUFFIX" [] "branchA") as (_ & _ & Hget & _).
  split.
  - apply (Hseq (VStr "listResult") [VNum 2]).
    + discriminate.
    + constructor; [reflexivity|constructor].
    + reflexivity.
  - refine (eq_trans
              (Hget 0 exampleHeap [mkEntry "src" DefaultResolver (VRef 10)] 9
                 "field" _) eq_refl).
    split; [reflexivity|discriminate].
Defined.

(** ** Objects and the store *)

Section StoreFacts.

Lemma includesKey_lookupProp (ps : list (string * value)) (k : string) :
  includesKey (map fst ps) k = true ↔ lookupProp ps k ≠ None.
Proof.
  induction ps as [|[k' v] ps IH]; simpl; [done|].
  rewrite (String.eqb_sym k k').
  destruct (String.eqb k' k); simpl; [done|]. exact IH.
Qed.


Lemma lookupProp_replaceProp ps k v k' :
  lookupProp ps k ≠ None →
  lookupProp (replaceProp ps k v) k'
  = if String.eqb k' k then Some v else lookupProp ps k'.
Proof.
  induction ps as [|[k0 v0] ps IH]; simpl; [done|].
  intros Hk.
  destruct (String.eqb_spec k0 k) as [E|E]; simpl.
  - string_cases.
  - specialize (IH Hk). string_cases.
Qed.

Lemma lookupProp_insertIndexProp ps i k v k' :
  lookupProp ps k = None →
  lookupProp (insertIndexProp ps i k v) k'
  = if String.eqb k' k then Some v else lookupProp ps k'.
Proof.
  assert (∀ qs, lookupProp ((k, v) :: qs) k'
                = if String.eqb k' k then Some v else lookupProp qs k') as Hhd.
  { intros qs. simpl. string_cases. }
  induction ps as [|[k0 v0] ps IH]; [intros _; apply Hhd|].
  intros Hk. cbn [insertIndexProp].
  destruct (parseIndex k0) as [j|]; [|apply Hhd].
  destruct (j <? i)%nat; [|apply Hhd].
  simpl in Hk. simpl.
  destruct (String.eqb_spec k0 k) as [E|E]; [done|].
  specialize (IH Hk). string_cases.
Qed.

Lemma lookupProp_app_new ps k v k' :
  lookupProp ps k = None →
  lookupProp (ps ++ [(k, v)]) k'
  = if String.eqb k' k then Some v else lookupProp ps k'.
Proof.
  induction ps as [|[k0 v0] ps IH]; simpl.
  - intros _. string_cases.
  - intros Hk. destruct (String.eqb_spec k0 k) as [E|E]; [done|].
    specialize (IH Hk). string_cases.
Qed.

(** [o[k] = v] sets [k] and leaves the other properties alone. *)
Lemma lookupProp_setProp o k v k' :
  lookupProp (props (setProp o k v)) k'
  = if String.eqb k' k then Some v else lookupProp (props o) k'.
Proof.
  unfold setProp. destruct (lookupProp (props o) k) eqn:Hk; simpl.
  - apply lookupProp_replaceProp. by rewrite Hk.
  - destruct (parseIndex k) as [i|]; simpl.
    + by apply lookupProp_insertIndexProp.
    + by apply lookupProp_app_new.
Qed.

Lemma objAt_setAt_eq h l k v :
  (l < length h)%nat → objAt (setAt h l k v) l = setProp (objAt h l) k v.
Proof.
  intros Hl. unfold setAt. set (o := setProp (objAt h l) k v).
  unfold objAt. by rewrite list_lookup_insert_eq.
Qed.

Lemma lookup_setAt_ne h l k v l' :
  l ≠ l' → setAt h l k v !! l' = h !! l'.
Proof. intros Hne. unfold setAt. by apply list_lookup_insert_ne. Qed.

Lemma objAt_setAt_ne h l k v l' :
  l ≠ l' → objAt (setAt h l k v) l' = objAt h l'.
Proof. intros Hne. unfold objAt. by rewrite lookup_setAt_ne. Qed.


End StoreFacts.

(** ** Copying the fallback template *)

Section CopyFacts.

Variable lengthOf : heap -> value -> option nat.

Abbreviation assignProp := (assignProp lengthOf).
Abbreviation assignAt := (assignAt lengthOf).
Abbreviation copyStep := (copyStep lengthOf).
Abbreviation copyKeys := (copyKeys lengthOf).
Abbreviation copyDefaults := (copyDefaults lengthOf).

Implicit Types (h hc : heap) (fallback : value) (result : loc).


Lemma objAt_insert h (l : loc) (o : obj) :
  (l < length h)%nat → objAt (<[l := o]> h) l = o.
Proof. intros Hl. unfold objAt. by rewrite list_lookup_insert_eq. Qed.


Lemma isArray_setProp (o : obj) (k : string) (v : value) :
  isArray (setProp o k v) = isArray o.
Proof.
  unfold isArray, setProp.
  destruct (lookupProp (props o) k); [done|].
  destruct (parseIndex k); simpl; by destruct (arrLen o).
Qed.

Lemma arrLen_setProp_mapping (o : obj) (k : string) (v : value) :
  arrLen o = None → arrLen (setProp o k v) = None.
Proof.
  intros Harr. pose proof (isArray_setProp o k v) as H.
  unfold isArray in H. rewrite Harr in H.
  by destruct (arrLen (setProp o k v)).
Qed.

Lemma assignAt_other h l k v h' l' :
  assignAt h l k v = Ok h' → l' ≠ l → h' !! l' = h !! l'.
Proof.
  unfold assignAt. destruct (assignProp h (objAt h l) k v) as [o| |]; cbn;
    [|done|done].
  intros [= <-] Hne. by apply list_lookup_insert_ne.
Qed.

Lemma assignAt_length h l k v h' :
  assignAt h l k v = Ok h' → length h' = length h.
Proof.
  unfold assignAt. destruct (assignProp h (objAt h l) k v) as [o| |]; cbn;
    [|done|done].
  intros [= <-]. apply length_insert.
Qed.

Lemma copyStep_other keys fallback result hc key hc' l :
  copyStep keys fallback result hc key = Ok hc' → l ≠ result →
  hc' !! l = hc !! l.
Proof.
  unfold copyStep. destruct (negb (includesKey keys key)).
  - apply assignAt_other.
  - by intros [= <-].
Qed.

Lemma copyStep_length keys fallback result hc key hc' :
  copyStep keys fallback result hc key = Ok hc' → length hc' = length hc.
Proof.
  unfold copyStep. destruct (negb (includesKey keys key)).
  - apply assignAt_length.
  - by intros [= <-].
Qed.

(** The copy loop writes to [result] only. *)
Lemma copyKeys_other keys fallback result L :
  ∀ hc hc', copyKeys keys fallback result L hc = Ok hc' →
            length hc' = length hc ∧ ∀ l, l ≠ result → hc' !! l = hc !! l.
Proof.
  induction L as [|key L IH]; intros hc hc'; simpl.
  - by intros [= <-].
  - destruct (copyStep keys fallback result hc key) as [h1| |] eqn:Hstep; cbn;
      [|done|done].
    intros Hrest. destruct (IH h1 hc' Hrest) as [Hlen Hoth]. split.
    + rewrite Hlen. by eapply copyStep_length.
    + intros l Hl. rewrite Hoth by done. by eapply copyStep_other.
Qed.

Lemma copyKeys_noop keys fallback result L hc :
  Forall (λ key, includesKey keys key = true) L →
  copyKeys keys fallback result L hc = Ok hc.
Proof.
  induction 1 as [|key L Hkey _ IH]; simpl; [done|].
  unfold copyStep at 1. rewrite Hkey. cbn. exact IH.
Qed.












Lemma copyDefaults_length h fallback result h2 :
  copyDefaults h fallback result = Ok h2 → length h2 = length h.
Proof. intros Hc. by apply (copyKeys_other _ _ _ _ _ _ Hc). Qed.


(** A result that has every key of the template is left as it is. *)
Lemma copyDefaults_saturated h fallback result :
  forallb (includesKey (ownKeys (objAt h result))) (forInKeys h fallback) = true →
  copyDefaults h fallback result = Ok h.
Proof.
  intros Hall. apply copyKeys_noop.
  apply Forall_forall. intros key Hin.
  rewrite forallb_forall in Hall. apply Hall. by apply list_elem_of_In.
Qed.

End CopyFacts.

(** ** The tree walk *)

Section TraverseFacts.

Variable resolverFn :
  fnid -> heap -> value -> list string -> value -> path -> outcome value.
Variable callbackFn :
  fnid -> heap -> value -> value -> path -> outcome value.
Variable primEqObj : heap -> value -> loc -> bool.
Variable lengthOf : heap -> value -> option nat.
Variable rs : repositories.
Variable exclude : option (list value).

Abbreviation getCmValue := (getCmValue resolverFn callbackFn).
Abbreviation looseNeqObj := (looseNeqObj primEqObj).
Abbreviation visitKey :=
  (visitKey resolverFn callbackFn primEqObj lengthOf rs exclude).
Abbreviation traverseConfig :=
  (traverseConfig resolverFn callbackFn primEqObj lengthOf rs exclude).
Abbreviation updateConfig :=
  (updateConfig resolverFn callbackFn primEqObj lengthOf rs exclude).
Abbreviation copyDefaults := (copyDefaults lengthOf).

Lemma traverseConfig_S fuel h pth config :
  traverseConfig (S fuel) h pth config
  = let fallback := getOwn (objAt h config) FALLBACK_KEY in
    let step := visitKey fuel (traverseConfig fuel) fallback config pth in
    match arrLen (objAt h config) with
    | Some n => visitIndices (S n + fuel) step config 0 h
    | None => visitKeys step (ownKeys (objAt h config)) h
    end.
Proof. reflexivity. Qed.



Lemma visitKeys_unchanged step (vs : list string) h :
  Forall (λ k, step h (VStr k) = Ok h) vs → visitKeys step vs h = Ok h.
Proof.
  induction 1 as [|k vs Hk _ IH]; simpl; [done|]. rewrite Hk. exact IH.
Qed.

Lemma visitIndices_unchanged budget step config h len i :
  arrLen (objAt h config) = Some len →
  (∀ j, (i ≤ j < len)%nat → step h (VNum (Z.of_nat j)) = Ok h) →
  (len - i < budget)%nat →
  visitIndices budget step config i h = Ok h.
Proof.
  intros Hlen. revert i. induction budget as [|budget IH]; intros i Hs Hb; [lia|].
  simpl. rewrite Hlen.
  destruct (Nat.ltb_spec i len) as [Hlt|Hge]; [|done].
  rewrite Hs by lia. cbn. apply IH; [|lia].
  intros j Hj. apply Hs. lia.
Qed.

Lemma settledb_pos n h config : settledb n exclude h config = true → (0 < n)%nat.
Proof. destruct n; [done|lia]. Qed.

(** The walk leaves a resolved tree as it is. *)
Lemma traverseConfig_settled n :
  ∀ fuel h pth config,
    settledb n exclude h config = true → (n ≤ fuel)%nat →
    traverseConfig fuel h pth config = Ok h.
Proof.
  induction n as [|n IH]; intros fuel h pth config Hs Hf; [done|].
  destruct fuel as [|fuel]; [lia|].
  rewrite traverseConfig_S. cbn zeta.
  cbn [settledb] in Hs. rewrite forallb_forall in Hs.
  set (fallback := getOwn (objAt h config) FALLBACK_KEY) in *.
  assert (∀ indexKey, In indexKey (visitedKeys (objAt h config)) →
            visitKey fuel (traverseConfig fuel) fallback config pth h indexKey
            = Ok h) as Hstep.
  { intros indexKey Hin. specialize (Hs indexKey Hin).
    unfold visitKey.
    destruct (getOwn (objAt h config) (keyString indexKey)) as [| | | | | |lv];
      try done.
    destruct (notFallbackKey indexKey && notExcluded exclude indexKey); [|done].
    apply andb_true_iff in Hs as [Hs Hrec].
    apply andb_true_iff in Hs as [Hmacro Hsat].
    apply negb_true_iff in Hmacro.
    pose proof (settledb_pos _ _ _ Hrec) as Hpos.
    destruct fuel as [|fuel']; [lia|].
    rewrite (getCmValue_pass_through resolverFn callbackFn fuel' h rs
               (VRef lv)) by exact Hmacro.
    unfold mbind, outcome_bind, bind, looseNeqObj. cbv beta iota zeta.
    rewrite Nat.eqb_refl. change (negb true) with false. cbv beta iota.
    destruct (truthy fallback).
    - rewrite (copyDefaults_saturated lengthOf _ _ _ Hsat). cbv beta iota.
      apply IH; [done|lia].
    - cbv beta iota. apply IH; [done|lia]. }
  unfold visitedKeys in Hstep.
  destruct (arrLen (objAt h config)) as [len|] eqn:Hlen.
  - apply (visitIndices_unchanged _ _ _ _ len); [done| |lia].
    intros j Hj. apply Hstep. apply in_map_iff. exists j. split; [done|].
    apply in_seq. lia.
  - apply visitKeys_unchanged. apply Forall_forall. intros k Hk.
    apply Hstep. apply in_map. by apply list_elem_of_In.
Qed.


(** A mapping that holds no object is walked through without a change. *)
Lemma visitKey_no_object fuel descend fallback config pth h indexKey :
  isObject (getOwn (objAt h config) (keyString indexKey)) = false →
  visitKey fuel descend fallback config pth h indexKey = Ok h.
Proof.
  intros Hv. unfold visitKey.
  by destruct (getOwn (objAt h config) (keyString indexKey)).
Qed.









End TraverseFacts.


(** The tree [{ $defaults: {url: "fallback", prop: "1.2.3"},
    branch: {prop: "0.1"} }] after [updateConfig]: [branch] got the [url] of
    the template and kept its own [prop]. *)
Lemma updateConfig_fallbackHeap :
  updateConfig exampleResolverFn exampleCallbackFn examplePrimEqObj
    exampleLengthOf
    [testRepository] (Some []) 3 fallbackHeap (VRef 0) (VStr EmptyString)
  = Ok fallbackHeapDone.
Proof. reflexivity. Qed.




(** ** The test-suite's configuration *)

(** "Register repositories (at the beginning and at position x)". *)
Example register_at_positions :
  getRepositoryNames
    (register "added3" VUndef 3 VUndef
       (register "added2" VUndef 0 VUndef
          (register "added1" VUndef 0 VUndef (reset VUndef))))
  = ["added2"; "added1"; "env"; "added3"].
Proof. reflexivity. Qed.

(** "Config-Object with fallback" and "Handle properties with an
    Array-value": the branches get the template's entries resolved in their
    own context, the template keeps its macros, and a second pass changes
    nothing. *)
Example updateConfig_repWithFallback :
  ∃ h',
    updateConfig exampleResolverFn exampleCallbackFn examplePrimEqObj
      exampleLengthOf
      testChain (Some []) 6 repWithFallback (VRef 0) (VStr EmptyString) = Ok h'
    ∧ getOwn (objAt h' 7) "url" = VStr "http://127.0.0.1:1111/"
    ∧ getOwn (objAt h' 7) "urlEnv" = VStr "env-url"
    ∧ getOwn (objAt h' 7) "urlBranchEnv" = VStr "branchEnvLookup_URL"
    ∧ getOwn (objAt h' 7) "prop" = VStr "1.2.3"
    ∧ getOwn (objAt h' 7) "onlyFallbackEnv" = VStr "env-url"
    ∧ getOwn (objAt h' 7) "onlyFallbackBranchEnv" = VStr "branchEnvLookup_URL"
    ∧ getOwn (objAt h' 7) "onlyFallbackBranchEnvDefault" = VStr "<undefined>"
    ∧ getOwn (objAt h' 6) "url" = VStr "http://localhost:1234"
    ∧ getOwn (objAt h' 6) "prop" = VStr "0.1.2.3"
    ∧ props (objAt h' 11)
      = [("0", VStr "env-url"); ("1", VStr "Hello");
         ("2", VStr "branchList_URL")]
    ∧ h' !! 1 = repWithFallback !! 1
    ∧ updateConfig exampleResolverFn exampleCallbackFn examplePrimEqObj
        exampleLengthOf
        testChain (Some []) 6 h' (VRef 0) (VStr EmptyString) = Ok h'.
Proof. eexists. split; [vm_compute; reflexivity|]. repeat split. Qed.

(** An object nested in a template entry is shared with the branches that
    inherit the entry: the walk through [a] resolves the macro inside it, for
    [b] and for the template's entry as well; the template object itself
    still holds the same reference. *)
Example shared_template_entry :
  ∃ h',
    updateConfig exampleResolverFn exampleCallbackFn examplePrimEqObj
      exampleLengthOf
      [mkEntry "src" DefaultResolver (VRef 6)] (Some []) 6
      sharedTemplateHeap (VRef 0) (VStr EmptyString) = Ok h'
    ∧ getOwn (objAt h' 3) "opts" = VRef 2
    ∧ getOwn (objAt h' 4) "opts" = VRef 2
    ∧ h' !! 1 = sharedTemplateHeap !! 1
    ∧ getOwn (objAt h' 2) "url" = VStr "env-url".
Proof. eexists. split; [vm_compute; reflexivity|]. repeat split. Qed.

(** * Further properties *)

(** ** The repository chain *)

Lemma unregister_absent name rs :
  name ∉ getRepositoryNames rs → unregister name rs = (false, rs).
Proof.
  induction rs as [|e rest IH]; simpl; [done|].
  rewrite not_elem_of_cons. intros [Hne Hrest].
  destruct (String.eqb_spec (entryName e) name) as [Heq|_]; [by destruct Hne|].
  by rewrite (IH Hrest).
Qed.

Lemma unregister_first name pre e post :
  name ∉ getRepositoryNames pre → entryName e = name →
  unregister name (pre ++ e :: post) = (true, pre ++ post).
Proof.
  intros Hpre He. induction pre as [|e' pre' IH]; simpl.
  - rewrite He, String.eqb_refl. done.
  - simpl in Hpre. rewrite not_elem_of_cons in Hpre. destruct Hpre as [Hne Hpre'].
    destruct (String.eqb_spec (entryName e') name) as [Heq|_]; [by destruct Hne|].
    by rewrite (IH Hpre').
Qed.

(** [unregister] tells whether the name was registered, and changes nothing
    when it was not. *)
Theorem unregister_reports_presence name rs :
  (fst (unregister name rs) = true ↔ name ∈ getRepositoryNames rs)
  ∧ (fst (unregister name rs) = false → snd (unregister name rs) = rs).
Proof.
  assert (fst (unregister name rs) = true ↔ name ∈ getRepositoryNames rs) as H.
  { induction rs as [|e rest IH]; simpl.
    - split; [done|]. intros Hin. by apply elem_of_nil in Hin.
    - rewrite elem_of_cons.
      destruct (String.eqb_spec (entryName e) name) as [Heq|Hne]; simpl.
      + split; [intros _; by left|done].
      + destruct (unregister name rest) as [found rest'] eqn:Hu. simpl in *.
        rewrite IH. split; [by right|]. intros [Heq|Hin]; [by destruct Hne|done]. }
  split; [exact H|].
  intros Hf. rewrite unregister_absent; [done|].
  intros Hin. apply H in Hin. congruence.
Qed.

(** [unregister] of a registered name removes the first entry of that name
    and nothing else: the entries before and behind it stay, in their order. *)
Theorem unregister_removes_one_entry name pre e post :
  name ∉ getRepositoryNames pre → entryName e = name →
  unregister name (pre ++ e :: post) = (true, pre ++ post)
  ∧ length (snd (unregister name (pre ++ e :: post))) = length pre + length post.
Proof.
  intros Hpre He. rewrite (unregister_first name pre e post Hpre He).
  split; [done|]. simpl. by rewrite length_app.
Qed.

(** Registering a name that is not in the chain and unregistering it again
    gives the chain back, whatever the index. *)
Theorem register_unregister_round_trip name repository index resolver rs :
  name ∉ getRepositoryNames rs →
  unregister name (register name repository index resolver rs) = (true, rs).
Proof.
  intros Hn. unfold register, spliceInsert.
  rewrite (unregister_absent name rs Hn). simpl.
  set (i := spliceStart (length rs) index).
  rewrite unregister_first; [by rewrite take_drop| |done].
  intros Hin. apply Hn. unfold getRepositoryNames in *.
  change (map entryName) with (fmap (M:=list) entryName) in *.
  apply list_elem_of_fmap in Hin as (x & -> & Hx).
  apply list_elem_of_fmap_2. apply elem_of_take in Hx as (j & Hj & _).
  by eapply list_elem_of_lookup_2.
Qed.

Lemma filter_unregister name rs :
  List.filter (λ e, negb (entryName e =? name)) (snd (unregister name rs))
  = List.filter (λ e, negb (entryName e =? name)) rs.
Proof.
  induction rs as [|e rest IH]; simpl; [done|].
  destruct (String.eqb_spec (entryName e) name) as [Heq|Hne]; simpl; [done|].
  destruct (unregister name rest) as [found rest'] eqn:Hu. simpl in *.
  destruct (String.eqb_spec (entryName e) name) as [Heq|_]; [done|].
  simpl. by rewrite IH.
Qed.

(** [register] leaves the entries of the other names as they are and in the
    order they had, wherever the index puts the new entry. *)
Theorem register_keeps_other_entries name repository index resolver rs :
  List.filter (λ e, negb (entryName e =? name))
    (register name repository index resolver rs)
  = List.filter (λ e, negb (entryName e =? name)) rs.
Proof.
  unfold register, spliceInsert.
  set (rs' := snd (unregister name rs)).
  set (i := spliceStart (length rs') index).
  rewrite List.filter_app. simpl. rewrite String.eqb_refl. simpl.
  rewrite <- List.filter_app, take_drop. apply filter_unregister.
Qed.

(** The place of the new entry: with an index that is not negative, the
    entry goes to that position of the chain without the old entry of the
    name, and to the end when the index is beyond it (as the default index
    is on every chain shorter than it). *)
Theorem register_position name repository index resolver rs :
  (0 ≤ index)%Z →
  let rs' := snd (unregister name rs) in
  let e := mkEntry name
             (if truthy resolver then CustomResolver resolver
              else DefaultResolver) repository in
  register name repository index resolver rs
  = take (Z.to_nat index) rs' ++ e :: drop (Z.to_nat index) rs'
  ∧ register name repository index resolver rs
      !! Nat.min (Z.to_nat index) (length rs') = Some e
  ∧ ((Z.of_nat (length rs') ≤ index)%Z →
     register name repository index resolver rs = rs' ++ [e]).
Proof.
  intros Hidx rs' e.
  assert (register name repository index resolver rs
          = take (Z.to_nat index) rs' ++ e :: drop (Z.to_nat index) rs') as Heq.
  { unfold register, spliceInsert, spliceStart. fold rs'. fold e.
    destruct (Z.ltb_spec index 0) as [?|_]; [lia|].
    destruct (Nat.le_gt_cases (Z.to_nat index) (length rs')) as [Hle|Hgt].
    - by rewrite Nat.min_l.
    - rewrite Nat.min_r by lia.
      by rewrite !take_ge, !drop_ge by lia. }
  split; [exact Heq|]. split.
  - rewrite Heq. rewrite lookup_app_r; rewrite length_take; [|lia].
    by rewrite Nat.sub_diag.
  - intros Hge. rewrite Heq. by rewrite take_ge, drop_ge by lia.
Qed.

(** ** The default resolver *)

Section ResolverFacts.

Variable resolverFn :
  fnid -> heap -> value -> list string -> value -> path -> outcome value.
Variable callbackFn :
  fnid -> heap -> value -> value -> path -> outcome value.

Lemma getv_defined h (v : value) (k : string) :
  isNullish v = false → ∃ r, getv h v k = Ok r.
Proof.
  intros Hv. destruct v as [| |b|n|s|f|l]; try done; simpl; try (by eexists).
  destruct (k =? "length")%string; [by eexists|].
  destruct (parseIndex k) as [i|]; [|by eexists].
  destruct (nthChar s i); by eexists.
Qed.

Lemma default_resolver_defined h (split : list string) :
  ∀ repository, isNullish repository = false →
    ∃ v, default_resolver h repository split = Ok v
         ∧ (split ≠ [] → v ≠ VNull).
Proof.
  induction split as [|p rest IH]; intros repository Hr; simpl.
  - exists repository. split; [done|]. by intros [].
  - destruct (getv_defined h repository p Hr) as [r ->]. cbn.
    destruct (isNullish r) eqn:Hn.
    + exists VUndef. split; [done|]. by intros _.
    + destruct (IH r Hn) as (v & Hv & Hnull). exists v. split; [done|].
      intros _. destruct rest as [|q rest'].
      * simpl in Hv. injection Hv as <-. by destruct r.
      * by apply Hnull.
Qed.

(** On a source that is neither [undefined] nor [null] the default resolver
    never throws, and for a key (which has at least one segment) it never
    answers [null]; a property of the source's own that holds [null] gives
    [undefined], whatever segments follow.  On a source that is [undefined]
    or [null] every key throws a TypeError. *)
Theorem default_resolver_total_on_sources h repository (split : list string) :
  split ≠ [] →
  (isNullish repository = false →
   ∃ v, default_resolver h repository split = Ok v ∧ v ≠ VNull)
  ∧ (∀ src k rest,
       repository = VRef src → split = k :: rest →
       lookupProp (props (objAt h src)) k = Some VNull →
       default_resolver h repository split = Ok VUndef)
  ∧ (isNullish repository = true →
     default_resolver h repository split = Throw TypeError).
Proof.
  intros Hs. split; [|split].
  - intros Hr. destruct (default_resolver_defined h split repository Hr)
      as (v & Hv & Hn).
    exists v. split; [done|by apply Hn].
  - intros src k rest -> -> Hk. cbn [default_resolver getv].
    unfold getOwn. by rewrite Hk.
  - intros Hr. destruct split as [|p rest]; [done|].
    by destruct repository.
Qed.

Lemma split_slash_nonempty (s : string) : split_slash s ≠ [].
Proof.
  destruct s as [|c rest]; simpl; [done|].
  destruct (Ascii.eqb c "/"); [done|]. by destruct (split_slash rest).
Qed.

Lemma split_slash_app (a b : string) :
  split_slash (a ++ String "/" b)%string = split_slash a ++ split_slash b.
Proof.
  induction a as [|c a IH]; simpl; [done|].
  destruct (Ascii.eqb c "/"); [by rewrite IH|].
  rewrite IH. pose proof (split_slash_nonempty a) as Hne.
  by destruct (split_slash a).
Qed.

Lemma default_resolver_app h (p1 p2 : list string) :
  ∀ repository v,
    default_resolver h repository p1 = Ok v → isNullish v = false →
    default_resolver h repository (p1 ++ p2) = default_resolver h v p2.
Proof.
  induction p1 as [|p rest IH]; intros repository v Hv Hn; simpl in *.
  - by injection Hv as ->.
  - destruct (getv h repository p) as [r| |]; cbn in *; try done.
    destruct (isNullish r) eqn:Hr.
    + injection Hv as <-. done.
    + by apply IH.
Qed.

Lemma default_resolver_app_missing h (p1 p2 : list string) :
  ∀ repository,
    p1 ≠ [] → default_resolver h repository p1 = Ok VUndef →
    default_resolver h repository (p1 ++ p2) = Ok VUndef.
Proof.
  induction p1 as [|p rest IH]; intros repository Hne Hv; [done|].
  simpl in *. destruct (getv h repository p) as [r| |]; cbn in *; try done.
  destruct (isNullish r) eqn:Hr; [done|].
  destruct rest as [|q rest'].
  - simpl in Hv. injection Hv as ->. done.
  - by apply IH.
Qed.

(** A key [a/b] is looked up as [b] inside what [a] gives: when the default
    resolver finds a value other than [undefined] and [null] for [a], the
    result for [a/b] is the result for [b] with that value as the source; and
    when it finds nothing for [a], it finds nothing for [a/b]. *)
Theorem default_resolver_walks_the_path h repository (a b : string) :
  (∀ v, default_resolver h repository (split_slash a) = Ok v →
        isNullish v = false →
        default_resolver h repository (split_slash (a ++ String "/" b))
        = default_resolver h v (split_slash b))
  ∧ (default_resolver h repository (split_slash a) = Ok VUndef →
     default_resolver h repository (split_slash (a ++ String "/" b))
     = Ok VUndef).
Proof.
  rewrite split_slash_app. split.
  - intros v Hv Hn. by apply default_resolver_app.
  - intros Hv. apply default_resolver_app_missing; [|done].
    apply split_slash_nonempty.
Qed.

(** A source registered at index 0 has the first word: when it defines the
    key of a macro (a key without "/") with a value other than [undefined]
    and [null], [getCmValue] returns that value, whatever the chain held
    before, provided the macro has no callback. *)
Theorem source_registered_first_wins fuel h rs name src l pth key key' v :
  macroKey h l key → expandKey key pth = Some key' →
  split_slash key' = [key'] →
  lookupProp (props (objAt h src)) key' = Some v → isNullish v = false →
  truthy (macroProp h l CM.CALLBACK_KEY) = false →
  getCmValue resolverFn callbackFn (S fuel) h
    (register name (VRef src) 0 VUndef rs) (VRef l) pth
  = Ok v.
Proof.
  intros Hm Hk Hsplit Hv Hn Hcb.
  assert (register name (VRef src) 0 VUndef rs
          = [] ++ mkEntry name DefaultResolver (VRef src)
                 :: snd (unregister name rs)) as ->.
  { unfold register, spliceInsert, spliceStart. reflexivity. }
  pose proof (callResolver_default_defined resolverFn h name src key' v
                (VRef l) pth Hsplit Hv Hn) as He.
  destruct (getCmValue_found resolverFn callbackFn fuel h []
              (mkEntry name DefaultResolver (VRef src))
              (snd (unregister name rs)) l pth key key' v
              Hm Hk ltac:(constructor) He Hn) as [_ H2].
  by apply H2.
Qed.

End ResolverFacts.

(** ** More on [getCmValue] *)

Section MoreResolutionFacts.

Variable resolverFn :
  fnid -> heap -> value -> list string -> value -> path -> outcome value.
Variable callbackFn :
  fnid -> heap -> value -> value -> path -> outcome value.

Abbreviation callResolver := (callResolver resolverFn).
Abbreviation queryRepositories := (queryRepositories resolverFn).
Abbreviation getCmValue := (getCmValue resolverFn callbackFn).
Abbreviation lookupWithDefault := (lookupWithDefault resolverFn).

(** An object with an own [$$] that is not a non-empty string is rejected
    with the CuError "Invalid macro-key" that carries the key and the path,
    before any repository is asked: the chain plays no part. *)
Theorem invalid_key_is_rejected fuel h rs l pth (k : value) :
  lookupProp (props (objAt h l)) CM.KEY_KEY = Some k →
  (∀ s, k = VStr s → s = EmptyString) →
  getCmValue (S fuel) h rs (VRef l) pth
  = Throw (CuError (InvalidMacroKey k pth)).
Proof.
  intros Hk Hbad. rewrite getCmValue_S.
  unfold hasOwnProperty, hasOwn, getv, getOwn. rewrite Hk. cbn.
  destruct k as [| |b|n|s|f|l']; try done.
  by rewrite (Hbad s eq_refl).
Qed.

(** A macro with a function as [$callback]: the callback gets the result of
    the lookup and default step, also an absent one, and what it returns
    takes the place of that result, for the mandatory check as well.  So a
    callback that returns a value saves a mandatory macro whose key is
    missing, a callback that returns [undefined] or [null] makes a mandatory
    macro fail although its key was found, and an error of the callback is
    the error of [getCmValue]. *)
Theorem callback_decides_the_result fuel h rs l pth key key' r f :
  macroKey h l key → expandKey key pth = Some key' →
  lookupWithDefault (getCmValue fuel h rs) h rs (VRef l) pth key' = Ok r →
  macroProp h l CM.CALLBACK_KEY = VFun f →
  (∀ r', callbackFn f h r (VRef l) pth = Ok r' → isNullish r' = false →
         getCmValue (S fuel) h rs (VRef l) pth = Ok r')
  ∧ (∀ r', callbackFn f h r (VRef l) pth = Ok r' → isNullish r' = true →
           getCmValue (S fuel) h rs (VRef l) pth
           = if truthy (macroProp h l CM.MANDATORY_KEY)
             then Throw (CuError (MandatoryValueMissing pth))
             else Ok r')
  ∧ (∀ e, callbackFn f h r (VRef l) pth = Throw e →
          getCmValue (S fuel) h rs (VRef l) pth = Throw e).
Proof.
  intros Hm Hk Hr Hcb.
  rewrite (getCmValue_macro resolverFn callbackFn _ _ _ _ _ _ _ Hm Hk).
  rewrite (resolveMacro_after_default resolverFn callbackFn _ _ _ _ _ _ _ Hr).
  rewrite Hcb. unfold applyCallback. cbn.
  split; [|split].
  - intros r' Hf Hn. rewrite Hf. cbn. by apply checkMandatory_present.
  - intros r' Hf Hn. rewrite Hf. cbn. unfold checkMandatory. by rewrite Hn.
  - intros e Hf. by rewrite Hf.
Qed.

(** A default that is a mandatory macro without a value: the error of the
    default is the error of the macro, and the path it carries ends in the
    marker "CM.DEFAULT_KEY" that the default step appends. *)
Theorem missing_mandatory_default_names_the_marker
  fuel h rs l pth key key' d keyd keyd' :
  macroKey h l key → expandKey key pth = Some key' →
  Forall (λ e, callResolver h e (split_slash key') (VRef l) pth = Ok VUndef)
    rs →
  lookupProp (props (objAt h l)) CM.DEFAULT_KEY = Some (VRef d) →
  macroKey h d keyd →
  expandKey keyd (pth ++ [VStr "CM.DEFAULT_KEY"]) = Some keyd' →
  Forall (λ e, callResolver h e (split_slash keyd') (VRef d)
                 (pth ++ [VStr "CM.DEFAULT_KEY"]) = Ok VUndef) rs →
  lookupProp (props (objAt h d)) CM.DEFAULT_KEY = None →
  truthy (macroProp h d CM.CALLBACK_KEY) = false →
  truthy (macroProp h d CM.MANDATORY_KEY) = true →
  getCmValue (S (S fuel)) h rs (VRef l) pth
  = Throw (CuError (MandatoryValueMissing (pth ++ [VStr "CM.DEFAULT_KEY"]))).
Proof.
  intros Hm Hk Hrs Hd Hmd Hkd Hrsd Hdd Hcbd Hmand.
  rewrite (getCmValue_default_step resolverFn callbackFn _ _ _ _ _ _ _
             VUndef (VRef d) Hm Hk
             (queryRepositories_none resolverFn _ _ _ _ _ Hrs) eq_refl Hd).
  rewrite (getCmValue_macro resolverFn callbackFn _ _ _ _ _ _ _ Hmd Hkd).
  rewrite (resolveMacro_after_lookup resolverFn callbackFn _ _ _ _ _ _ _
             (queryRepositories_none resolverFn _ _ _ _ _ Hrsd)).
  rewrite (resolveDefault_undeclared _ _ _ _ _ Hdd). cbn.
  rewrite (applyCallback_none callbackFn _ _ _ _ _ Hcbd). cbn.
  unfold checkMandatory. by rewrite Hmand.
Qed.

(** A macro whose default is the macro itself and whose key no repository
    has: the default step calls [getCmValue] on the same macro again, with a
    longer path each time, and no amount of fuel gives a result. *)
Theorem self_default_never_resolves h rs l key :
  macroKey h l key → startsWithIndicator key = false →
  (∀ pth, ∃ v, queryRepositories h rs (split_slash key) (VRef l) pth = Ok v
               ∧ isNullish v = true) →
  lookupProp (props (objAt h l)) CM.DEFAULT_KEY = Some (VRef l) →
  ∀ fuel pth, getCmValue fuel h rs (VRef l) pth = OutOfFuel.
Proof.
  intros Hm Hs Hq Hd fuel. induction fuel as [|fuel IH]; intros pth; [done|].
  assert (expandKey key pth = Some key) as Hk.
  { unfold expandKey. by rewrite Hs. }
  destruct (Hq pth) as (v & Hv & Hn).
  rewrite (getCmValue_default_step resolverFn callbackFn _ _ _ _ _ _ _
             v (VRef l) Hm Hk Hv Hn Hd).
  by rewrite IH.
Qed.

End MoreResolutionFacts.

(** ** More on the parent of a path *)

Lemma pathAt_string_lookup (pth : path) (p : Z) (s : string) :
  (0 ≤ p)%Z → pathAt pth p = VStr s → pth !! Z.to_nat p = Some (VStr s).
Proof.
  intros Hp. unfold pathAt.
  destruct (Z.ltb_spec p 0) as [?|_]; [lia|].
  rewrite nth_lookup.
  destruct (pth !! Z.to_nat p) as [v|]; simpl; [by intros ->|done].
Qed.

Lemma findParent_segment (pth : path) (fuel : nat) :
  ∀ p s, findParent fuel pth p = Some s →
    s = EmptyString
    ∨ ∃ i, (i < length pth - 1)%nat ∧ pth !! i = Some (VStr s).
Proof.
  induction fuel as [|fuel IH]; intros p s; [done|].
  cbn [findParent].
  destruct (Z.leb_spec 0 p) as [Hp|Hp]; [|intros [= <-]; by left].
  destruct (pathAt pth p) as [| |b|n|s'|f|l] eqn:Hat;
    try (destruct (skipIndices (S (length pth)) pth p) as [p'|]; [|done];
         apply IH).
  destruct (Z.ltb_spec p (Z.of_nat (length pth) - 1)) as [Hlt|Hge]; [|apply IH].
  intros [= <-]. right. exists (Z.to_nat p). split; [lia|].
  by apply pathAt_string_lookup.
Qed.

(** The parent that replaces the marker is the empty string or a string
    entry of the path before its last entry: never the node's own entry,
    never an index; a path of one entry or none has the empty parent. *)
Theorem parent_is_an_earlier_name (pth : path) (s : string) :
  parentOf pth = Some s →
  (s = EmptyString
   ∨ ∃ i, (i < length pth - 1)%nat ∧ pth !! i = Some (VStr s))
  ∧ ((length pth ≤ 1)%nat → s = EmptyString).
Proof.
  intros Hs. pose proof (findParent_segment pth _ _ _ Hs) as H.
  split; [exact H|]. intros Hlen.
  destruct H as [H|(i & Hi & _)]; [done|lia].
Qed.

(** ** More on the tree walk *)

Lemma objGrows_refl o : objGrows o o.
Proof.
  unfold objGrows. destruct (arrLen o) as [n|]; [|done].
  split; [by exists n|done].
Qed.

Lemma objGrows_trans o1 o2 o3 :
  objGrows o1 o2 → objGrows o2 o3 → objGrows o1 o3.
Proof.
  unfold objGrows. destruct (arrLen o1) as [n1|].
  - intros [[n2 Hn2] Hk1]. rewrite Hn2. intros [Hn3 Hk2].
    split; [done|]. intros k Hk Hown. by apply Hk2, Hk1.
  - intros [Hn2 Hk1]. rewrite Hn2. intros [Hn3 Hk2].
    split; [done|]. intros k Hown. by apply Hk2, Hk1.
Qed.

Lemma storeGrows_refl h : storeGrows h h.
Proof. split; [done|]. intros l. apply objGrows_refl. Qed.

Lemma storeGrows_trans h1 h2 h3 :
  storeGrows h1 h2 → storeGrows h2 h3 → storeGrows h1 h3.
Proof.
  intros [Hl1 Ho1] [Hl2 Ho2]. split; [congruence|].
  intros l. by eapply objGrows_trans.
Qed.

Lemma objGrows_setProp o k v : objGrows o (setProp o k v).
Proof.
  assert (∀ k', hasOwn o k' = true → hasOwn (setProp o k v) k' = true) as Hk.
  { intros k'. unfold hasOwn. rewrite lookupProp_setProp.
    by destruct (String.eqb k' k). }
  unfold objGrows. destruct (arrLen o) as [n|] eqn:Harr.
  - split; [|by auto].
    unfold setProp. destruct (lookupProp (props o) k); simpl.
    + rewrite Harr. by exists n.
    + destruct (parseIndex k) as [i|]; simpl; rewrite Harr; by eexists.
  - split; [|done]. unfold setProp.
    destruct (lookupProp (props o) k); simpl; [done|].
    destruct (parseIndex k); simpl; by rewrite ?Harr.
Qed.

(** Setting the length of an array removes elements only. *)
Lemma objGrows_setLength o n m :
  arrLen o = Some m → objGrows o (setLength o n).
Proof.
  intros Harr. unfold objGrows. rewrite Harr. split; [by exists n|].
  intros k Hk. unfold hasOwn, setLength. cbn [props].
  induction (props o) as [|[k' v'] ps IH]; simpl; [done|].
  destruct (String.eqb_spec k' k) as [->|Hne].
  - intros _. rewrite Hk. simpl. by rewrite String.eqb_refl.
  - intros Hown.
    destruct (match parseIndex k' with
              | Some i => (i <? n)%nat
              | None => true
              end); simpl; [|by apply IH].
    destruct (String.eqb_spec k' k) as [?|_]; [done|]. by apply IH.
Qed.

Section GrowFacts.

Variable lengthOf : heap -> value -> option nat.

Lemma objGrows_assignProp h o k v o' :
  assignProp lengthOf h o k v = Ok o' → objGrows o o'.
Proof.
  unfold assignProp, isArray.
  destruct (arrLen o) as [m|] eqn:Harr; cbn [andb].
  - destruct (k =? "length").
    + destruct (toArrayLength lengthOf h v) as [n|]; [|done].
      intros [= <-]. by apply (objGrows_setLength o n m).
    + destruct ((k =? "__proto__") && negb (hasOwn o k)); intros [= <-];
        [apply objGrows_refl|apply objGrows_setProp].
  - destruct ((k =? "__proto__") && negb (hasOwn o k)); intros [= <-];
      [apply objGrows_refl|apply objGrows_setProp].
Qed.

Lemma storeGrows_insert h l o :
  objGrows (objAt h l) o → storeGrows h (<[l := o]> h).
Proof.
  intros Ho. split; [apply length_insert|]. intros l'.
  destruct (Nat.eq_dec l l') as [<-|Hne].
  - destruct (Nat.lt_ge_cases l (length h)) as [Hlt|Hge].
    + unfold objAt at 2. by rewrite list_lookup_insert_eq.
    + rewrite list_insert_ge by done. apply objGrows_refl.
  - unfold objAt at 2. rewrite list_lookup_insert_ne by done.
    apply objGrows_refl.
Qed.

Lemma storeGrows_setAt h l k v : storeGrows h (setAt h l k v).
Proof. apply storeGrows_insert, objGrows_setProp. Qed.

Lemma storeGrows_assignAt h l k v h' :
  assignAt lengthOf h l k v = Ok h' → storeGrows h h'.
Proof.
  unfold assignAt.
  destruct (assignProp lengthOf h (objAt h l) k v) as [o| |] eqn:Ha; cbn;
    [|done|done].
  intros [= <-]. apply storeGrows_insert. by eapply objGrows_assignProp.
Qed.

Lemma storeGrows_copyKeys keys fallback result L :
  ∀ hc hc', copyKeys lengthOf keys fallback result L hc = Ok hc' →
            storeGrows hc hc'.
Proof.
  induction L as [|key L IH]; intros hc hc'; simpl.
  - intros [= <-]. apply storeGrows_refl.
  - destruct (copyStep lengthOf keys fallback result hc key) as [h1| |]
      eqn:Hstep; cbn; [|done|done].
    intros Hrest. eapply storeGrows_trans; [|by apply IH].
    unfold copyStep in Hstep. destruct (negb (includesKey keys key)).
    + by eapply storeGrows_assignAt.
    + injection Hstep as <-. apply storeGrows_refl.
Qed.

Lemma storeGrows_copyDefaults h fallback result h' :
  copyDefaults lengthOf h fallback result = Ok h' → storeGrows h h'.
Proof. apply storeGrows_copyKeys. Qed.

End GrowFacts.

Section MoreTraverseFacts.

Variable resolverFn :
  fnid -> heap -> value -> list string -> value -> path -> outcome value.
Variable callbackFn :
  fnid -> heap -> value -> value -> path -> outcome value.
Variable primEqObj : heap -> value -> loc -> bool.
Variable lengthOf : heap -> value -> option nat.
Variable rs : repositories.
Variable exclude : option (list value).

Abbreviation getCmValue := (getCmValue resolverFn callbackFn).
Abbreviation looseNeqObj := (looseNeqObj primEqObj).
Abbreviation visitKey :=
  (visitKey resolverFn callbackFn primEqObj lengthOf rs exclude).
Abbreviation traverseConfig :=
  (traverseConfig resolverFn callbackFn primEqObj lengthOf rs exclude).
Abbreviation updateConfig :=
  (updateConfig resolverFn callbackFn primEqObj lengthOf rs exclude).

Lemma visitKey_grows fuel descend fallback config pth h indexKey h' :
  (∀ h0 p l h1, descend h0 p l = Ok h1 → storeGrows h0 h1) →
  visitKey fuel descend fallback config pth h indexKey = Ok h' →
  storeGrows h h'.
Proof.
  intros Hdesc. unfold visitKey.
  destruct (getOwn (objAt h config) (keyString indexKey))
    as [| | | | | |lv]; try (intros [= <-]; apply storeGrows_refl).
  destruct (notFallbackKey indexKey && notExcluded exclude indexKey);
    [|intros [= <-]; apply storeGrows_refl].
  destruct (getCmValue fuel h rs (VRef lv) (pth ++ [indexKey]))
    as [result| |]; cbn; [|done|done].
  set (h1 := if looseNeqObj h result lv
             then setAt h config (keyString indexKey) result else h).
  assert (storeGrows h h1) as H1.
  { subst h1. destruct (looseNeqObj h result lv);
      [apply storeGrows_setAt|apply storeGrows_refl]. }
  destruct result as [| | | | | |lr]; try (by intros [= <-]).
  destruct (if truthy fallback
            then copyDefaults lengthOf h1 fallback lr
            else Ok h1) as [h2| |] eqn:Hcopy; cbn; [|done|done].
  intros Hd. apply Hdesc in Hd.
  eapply storeGrows_trans; [exact H1|].
  eapply storeGrows_trans; [|exact Hd].
  destruct (truthy fallback).
  - by eapply storeGrows_copyDefaults.
  - injection Hcopy as <-. apply storeGrows_refl.
Qed.

Lemma visitKeys_grows step (keys : list string) :
  (∀ h k h', step h k = Ok h' → storeGrows h h') →
  ∀ h h', visitKeys step keys h = Ok h' → storeGrows h h'.
Proof.
  intros Hstep. induction keys as [|k keys IH]; intros h h'; simpl.
  - intros [= <-]. apply storeGrows_refl.
  - destruct (step h (VStr k)) as [h1| |] eqn:Hs; cbn; [|done|done].
    intros Hrest. eapply storeGrows_trans; [by eapply Hstep|by apply IH].
Qed.

Lemma visitIndices_grows step config (budget : nat) :
  (∀ h k h', step h k = Ok h' → storeGrows h h') →
  ∀ i h h', visitIndices budget step config i h = Ok h' → storeGrows h h'.
Proof.
  intros Hstep. induction budget as [|budget IH]; intros i h h'; simpl; [done|].
  destruct (arrLen (objAt h config)) as [n|];
    [|intros [= <-]; apply storeGrows_refl].
  destruct (i <? n)%nat; [|intros [= <-]; apply storeGrows_refl].
  destruct (step h (VNum (Z.of_nat i))) as [h1| |] eqn:Hs; cbn; [|done|done].
  intros Hrest. eapply storeGrows_trans; [by eapply Hstep|by eapply IH].
Qed.

Lemma traverseConfig_grows fuel :
  ∀ h pth config h',
    traverseConfig fuel h pth config = Ok h' → storeGrows h h'.
Proof.
  induction fuel as [|fuel IH]; intros h pth config h'; [done|].
  rewrite (traverseConfig_S resolverFn callbackFn primEqObj lengthOf rs exclude).
  cbv zeta.
  assert (∀ h0 k h1,
            visitKey fuel (traverseConfig fuel)
              (getOwn (objAt h config) FALLBACK_KEY) config pth h0 k = Ok h1 →
            storeGrows h0 h1) as Hstep.
  { intros h0 k h1. apply visitKey_grows. intros ? ? ? ?. apply IH. }
  destruct (arrLen (objAt h config)) as [n|].
  - by apply visitIndices_grows.
  - by apply visitKeys_grows.
Qed.

(** [updateConfig] only adds and overwrites the properties of mappings:
    when it returns, the store has the same objects as before, a mapping is
    still a mapping and has every key it had, and an array is still an array
    and has every key it had that is not an index (its elements and its
    length can change). *)
Theorem updateConfig_never_removes fuel h root initialParentKey h' :
  updateConfig fuel h root initialParentKey = Ok h' →
  storeGrows h h'.
Proof.
  unfold updateConfig.
  destruct root as [| | | | | |l]; try (intros [= <-]; apply storeGrows_refl).
  apply traverseConfig_grows.
Qed.

Lemma visitKey_scalar fuel descend fallback config pth h k lv v :
  getOwn (objAt h config) k = VRef lv →
  k ≠ FALLBACK_KEY → notExcluded exclude (VStr k) = true →
  getCmValue fuel h rs (VRef lv) (pth ++ [VStr k]) = Ok v →
  isObject v = false → looseNeqObj h v lv = true →
  visitKey fuel descend fallback config pth h (VStr k)
  = Ok (setAt h config k v).
Proof.
  intros Hv Hk He Hg Hobj Hneq. unfold visitKey. cbn [keyString].
  rewrite Hv. cbn [notFallbackKey]. rewrite He.
  destruct (String.eqb_spec k FALLBACK_KEY) as [?|_]; [done|].
  cbv beta iota zeta. change (negb false && true) with true. cbv iota.
  rewrite Hg. cbn. rewrite Hneq. by destruct v.
Qed.

(** A mapping whose only property that holds an object is a macro: when the
    macro resolves to a value that is not an object, [updateConfig] on the
    mapping puts that value in the place of the macro and changes nothing
    else in the store. *)
Theorem macro_property_is_replaced fuel h c pth k m v :
  arrLen (objAt h c) = None →
  lookupProp (props (objAt h c)) k = Some (VRef m) →
  (∀ k', k' ≠ k → isObject (getOwn (objAt h c) k') = false) →
  k ≠ FALLBACK_KEY → notExcluded exclude (VStr k) = true →
  getCmValue fuel h rs (VRef m) (pth ++ [VStr k]) = Ok v →
  isObject v = false → looseNeqObj h v m = true →
  traverseConfig (S fuel) h pth c = Ok (setAt h c k v)
  ∧ getOwn (objAt (setAt h c k v) c) k = v
  ∧ (∀ k', k' ≠ k →
       getOwn (objAt (setAt h c k v) c) k' = getOwn (objAt h c) k')
  ∧ (∀ l, l ≠ c → setAt h c k v !! l = h !! l).
Proof.
  intros Harr Hk Hothers Hnf Hex Hg Hobj Hneq.
  assert (c < length h)%nat as Hc.
  { destruct (Nat.lt_ge_cases c (length h)) as [?|Hge]; [done|].
    unfold objAt in Hk. by rewrite lookup_ge_None_2 in Hk. }
  set (h1 := setAt h c k v).
  assert (∀ k', getOwn (objAt h1 c) k'
                = if String.eqb k' k then v else getOwn (objAt h c) k') as Hget.
  { intros k'. subst h1. rewrite objAt_setAt_eq by done.
    unfold getOwn. rewrite lookupProp_setProp.
    assert (arrLen (setProp (objAt h c) k v) = None) as ->.
    { unfold setProp. by rewrite Hk. }
    rewrite Harr. by destruct (String.eqb k' k). }
  set (fallback := getOwn (objAt h c) FALLBACK_KEY).
  set (step := visitKey fuel (traverseConfig fuel) fallback c pth).
  assert (step h (VStr k) = Ok h1) as Hstep_k.
  { apply visitKey_scalar with (lv := m); try done.
    unfold getOwn. by rewrite Hk. }
  assert (∀ k', k' ≠ k → step h (VStr k') = Ok h) as Hstep_o.
  { intros k' Hne. apply visitKey_no_object. by apply Hothers. }
  assert (∀ k', step h1 (VStr k') = Ok h1) as Hstep_1.
  { intros k'. apply visitKey_no_object. cbn [keyString]. rewrite Hget.
    destruct (String.eqb_spec k' k) as [_|Hne]; [done|by apply Hothers]. }
  assert (∀ keys, visitKeys step keys h1 = Ok h1) as Hafter.
  { induction keys as [|k' keys IH]; simpl; [done|].
    rewrite Hstep_1. exact IH. }
  assert (∀ keys, visitKeys step keys h
                  = Ok (if includesKey keys k then h1 else h)) as Hbefore.
  { induction keys as [|k' keys IH]; simpl; [done|].
    destruct (String.eqb_spec k k') as [<-|Hne]; simpl.
    - rewrite Hstep_k. cbn. apply Hafter.
    - rewrite Hstep_o by done. exact IH. }
  split; [|split; [|split]].
  - rewrite (traverseConfig_S resolverFn callbackFn primEqObj lengthOf rs exclude).
    cbv zeta. rewrite Harr. fold fallback. fold step. rewrite Hbefore.
    assert (includesKey (ownKeys (objAt h c)) k = true) as ->; [|done].
    apply includesKey_lookupProp. by rewrite Hk.
  - rewrite Hget. by rewrite String.eqb_refl.
  - intros k' Hne. rewrite Hget.
    by destruct (String.eqb_spec k' k).
  - intros l Hl. by apply lookup_setAt_ne.
Qed.

(** A property whose name is in [exclude] is passed over, as [$defaults]
    itself is: a node all of whose properties that hold an object are
    excluded or the template is left as it is, whatever stands below them,
    also a mandatory macro without a value. *)
Theorem excluded_properties_are_skipped fuel h pth c :
  (∀ indexKey lv, In indexKey (visitedKeys (objAt h c)) →
     getOwn (objAt h c) (keyString indexKey) = VRef lv →
     indexKey = VStr FALLBACK_KEY ∨ notExcluded exclude indexKey = false) →
  traverseConfig (S fuel) h pth c = Ok h.
Proof.
  intros Hskip.
  apply (traverseConfig_settled resolverFn callbackFn primEqObj lengthOf rs exclude 1);
    [|lia].
  cbn [settledb]. apply forallb_forall. intros indexKey Hin.
  destruct (getOwn (objAt h c) (keyString indexKey)) as [| | | | | |lv] eqn:Hv;
    try done.
  destruct (Hskip indexKey lv Hin Hv) as [->|Hex].
  - unfold notFallbackKey. by rewrite String.eqb_refl.
  - by rewrite Hex, andb_false_r.
Qed.

End MoreTraverseFacts.

(** ** The class [CM] *)

Lemma lookupProp_filter (ps : list (string * value)) (k k' : string) :
  lookupProp (List.filter (λ kv, negb (fst kv =? k)) ps) k'
  = if String.eqb k' k then None else lookupProp ps k'.
Proof.
  induction ps as [|[k0 v0] ps IH]; simpl; [by destruct (String.eqb k' k)|].
  destruct (String.eqb_spec k0 k) as [E|E]; simpl.
  - rewrite IH. string_cases.
  - rewrite IH. string_cases.
Qed.

Lemma lookupProp_removeProp (o : obj) (k k' : string) :
  lookupProp (props (removeProp o k)) k'
  = if String.eqb k' k then None else lookupProp (props o) k'.
Proof. apply lookupProp_filter. Qed.

(** [new CM(key, _default)] succeeds exactly for a non-empty string and for
    an object whose [$$] is truthy; for [null] it ends in the TypeError of
    the property access and for every other key in the CuError. *)
Theorem constructor_accepts h (key _default : value) :
  ((∃ this, CMClass.constructor h key _default = Constructed this)
   ↔ ((∃ s, key = VStr s ∧ s ≠ EmptyString)
      ∨ (∃ l, key = VRef l ∧ truthy (getOwn (objAt h l) CM.KEY_KEY) = true)))
  ∧ (CMClass.constructor h key _default = KeyTypeError ↔ key = VNull)
  ∧ ((∃ k, CMClass.constructor h key _default = KeyRejected k)
     → CMClass.constructor h key _default = KeyRejected key).
Proof.
  unfold CMClass.constructor.
  assert (∀ k : value,
            (∀ s, k = VStr s → s = EmptyString) →
            (∀ l, k = VRef l →
                  truthy (getOwn (objAt h l) CM.KEY_KEY) = false) →
            ¬ ((∃ s, k = VStr s ∧ s ≠ EmptyString)
               ∨ (∃ l, k = VRef l
                       ∧ truthy (getOwn (objAt h l) CM.KEY_KEY) = true)))
    as Hno.
  { intros k Hs Hl [(s & -> & Hne)|(l & -> & Ht)].
    - by apply Hne, Hs.
    - rewrite (Hl l eq_refl) in Ht. discriminate. }
  destruct key as [| |b|n|s|f|l]; simpl.
  - split; [split; [by intros [? ?]|intros H; exfalso; revert H; apply Hno; by intros ? [=]]|].
    split; [by split|by intros _].
  - split; [split; [by intros [? ?]|intros H; exfalso; revert H; apply Hno; by intros ? [=]]|].
    split; [by split|by intros [? ?]].
  - split; [split; [by intros [? ?]|intros H; exfalso; revert H; apply Hno; by intros ? [=]]|].
    split; [by split|by intros _].
  - split; [split; [by intros [? ?]|intros H; exfalso; revert H; apply Hno; by intros ? [=]]|].
    split; [by split|by intros _].
  - destruct (String.eqb_spec s EmptyString) as [->|Hne]; simpl.
    + split; [split; [by intros [? ?]|
                      intros H; exfalso; revert H; apply Hno;
                      [by intros s [= <-]|by intros ? [=]]]|].
      split; [by split|by intros _].
    + split; [split; [intros _; left; by exists s|by eexists]|].
      split; [by split|by intros [? ?]].
  - split; [split; [by intros [? ?]|intros H; exfalso; revert H; apply Hno; by intros ? [=]]|].
    split; [by split|by intros _].
  - destruct (truthy (getOwn (objAt h l) CM.KEY_KEY)) eqn:Ht.
    + split; [split; [intros _; right; by exists l|by eexists]|].
      split; [by split|by intros [? ?]].
    + split; [split; [by intros [? ?]|
                      intros H; exfalso; revert H; apply Hno;
                      [by intros ? [=]|by intros l' [= <-]]]|].
      split; [by split|by intros _].
Qed.

Lemma constructor_string_lookup h (s : string) (_default : value) :
  s ≠ EmptyString →
  ∃ this, CMClass.constructor h (VStr s) _default = Constructed this
    ∧ arrLen this = None
    ∧ lookupProp (props this) CM.KEY_KEY = Some (VStr s)
    ∧ lookupProp (props this) CM.DEFAULT_KEY
      = (if isDefined _default then Some _default else None)
    ∧ ∀ k, k ≠ CM.KEY_KEY → k ≠ CM.DEFAULT_KEY →
           lookupProp (props this) k = None.
Proof.
  intros Hs. unfold CMClass.constructor. cbn [truthy].
  destruct (String.eqb_spec s EmptyString) as [?|_]; [done|]. cbn [negb].
  eexists. split; [reflexivity|].
  assert (∀ k, lookupProp (props (setProp emptyObj CM.KEY_KEY (VStr s))) k
               = if String.eqb k CM.KEY_KEY then Some (VStr s) else None)
    as Hbase.
  { intros k. by rewrite lookupProp_setProp. }
  destruct (isDefined _default).
  - split; [done|]. split; [by rewrite lookupProp_setProp, Hbase|].
    split; [by rewrite lookupProp_setProp, String.eqb_refl|].
    intros k Hk Hd. rewrite lookupProp_setProp, Hbase.
    destruct (String.eqb_spec k CM.DEFAULT_KEY) as [?|_]; [done|].
    by destruct (String.eqb_spec k CM.KEY_KEY).
  - split; [done|]. split; [by rewrite Hbase|].
    split; [by rewrite Hbase|].
    intros k Hk Hd. rewrite Hbase.
    by destruct (String.eqb_spec k CM.KEY_KEY).
Qed.

(** A macro made from a non-empty string has that string as its key, the
    default it was given unless that is [undefined] (a [null] default is
    kept), and no other property. *)
Theorem constructor_from_string h (s : string) (_default : value) :
  s ≠ EmptyString →
  ∃ this, CMClass.constructor h (VStr s) _default = Constructed this
    ∧ arrLen this = None
    ∧ lookupProp (props this) CM.KEY_KEY = Some (VStr s)
    ∧ lookupProp (props this) CM.DEFAULT_KEY
      = (if isDefined _default then Some _default else None)
    ∧ ∀ k, k ≠ CM.KEY_KEY → k ≠ CM.DEFAULT_KEY →
           lookupProp (props this) k = None.
Proof. apply constructor_string_lookup. Qed.

Lemma filter_absent (ps : list (string * value)) (k : string) :
  lookupProp ps k = None →
  List.filter (λ kv, negb (fst kv =? k)) ps = ps.
Proof.
  induction ps as [|[k0 v0] ps IH]; simpl; [done|].
  destruct (String.eqb k0 k); [done|]. simpl. intros H. by rewrite IH.
Qed.

(** The copy constructor: a macro made from an object whose [$$] is truthy
    has the properties of that object, in their order, except that a default
    that is given takes the place of the object's, and that a property
    [__proto__] of the object is not copied (its assignment goes to the
    setter, which creates no property). *)
Theorem constructor_copies h l (_default : value) :
  truthy (getOwn (objAt h l) CM.KEY_KEY) = true →
  ∃ this, CMClass.constructor h (VRef l) _default = Constructed this
    ∧ (_default = VUndef →
       lookupProp (props (objAt h l)) "__proto__" = None →
       props this = props (objAt h l))
    ∧ (∀ k, k ≠ CM.DEFAULT_KEY → k ≠ "__proto__" →
            lookupProp (props this) k = lookupProp (props (objAt h l)) k)
    ∧ lookupProp (props this) "__proto__" = None
    ∧ (isDefined _default = true →
       lookupProp (props this) CM.DEFAULT_KEY = Some _default).
Proof.
  intros Ht. unfold CMClass.constructor. rewrite Ht.
  eexists. split; [reflexivity|].
  split; [|split; [|split]].
  - intros -> Hp. cbn. by apply filter_absent.
  - intros k Hk Hp. destruct (isDefined _default).
    + rewrite lookupProp_setProp. cbn [props].
      destruct (String.eqb_spec k CM.DEFAULT_KEY) as [?|_]; [done|].
      rewrite lookupProp_filter.
      by destruct (String.eqb_spec k "__proto__").
    + cbn [props]. rewrite lookupProp_filter.
      by destruct (String.eqb_spec k "__proto__").
  - destruct (isDefined _default).
    + rewrite lookupProp_setProp. cbn [props].
      destruct (String.eqb_spec "__proto__" CM.DEFAULT_KEY) as [?|_]; [done|].
      by rewrite lookupProp_filter, String.eqb_refl.
    + cbn [props]. by rewrite lookupProp_filter, String.eqb_refl.
  - intros ->. rewrite lookupProp_setProp. by rewrite String.eqb_refl.
Qed.

(** [default(value)] sets the default to every value but [undefined] and
    [null], for which it removes the property ([0], the empty string and
    [false] are kept as defaults); the other properties stay. *)
Theorem default_sets_or_removes (this : obj) (v : value) :
  lookupProp (props (CMClass.default this v)) CM.DEFAULT_KEY
  = (if isNullish v then None else Some v)
  ∧ ∀ k, k ≠ CM.DEFAULT_KEY →
         lookupProp (props (CMClass.default this v)) k
         = lookupProp (props this) k.
Proof.
  unfold CMClass.default. destruct (isNullish v).
  - split; [by rewrite lookupProp_removeProp, String.eqb_refl|].
    intros k Hk. rewrite lookupProp_removeProp.
    by destruct (String.eqb_spec k CM.DEFAULT_KEY).
  - split; [by rewrite lookupProp_setProp, String.eqb_refl|].
    intros k Hk. rewrite lookupProp_setProp.
    by destruct (String.eqb_spec k CM.DEFAULT_KEY).
Qed.

(** [mandatory(value)] stores [true] for every truthy value and removes the
    property for every falsy one, so the flag of a macro is [true] or not
    there; the other properties stay. *)
Theorem mandatory_sets_true_or_removes (this : obj) (v : value) :
  lookupProp (props (CMClass.mandatory this v)) CM.MANDATORY_KEY
  = (if truthy v then Some (VBool true) else None)
  ∧ ∀ k, k ≠ CM.MANDATORY_KEY →
         lookupProp (props (CMClass.mandatory this v)) k
         = lookupProp (props this) k.
Proof.
  unfold CMClass.mandatory. destruct (truthy v); cbn [negb].
  - split; [by rewrite lookupProp_setProp, String.eqb_refl|].
    intros k Hk. rewrite lookupProp_setProp.
    by destruct (String.eqb_spec k CM.MANDATORY_KEY).
  - split; [by rewrite lookupProp_removeProp, String.eqb_refl|].
    intros k Hk. rewrite lookupProp_removeProp.
    by destruct (String.eqb_spec k CM.MANDATORY_KEY).
Qed.

(** [callback(value)] throws the CuError of [checkCallback] exactly for a
    truthy value that is not a function; otherwise it stores a function as
    the callback and removes the property for a falsy value, and the other
    properties stay. *)
Theorem callback_stores_functions_only (this : obj) (v : value) :
  (CMClass.callback this v = Throw (CuError InvalidCallback)
   ↔ truthy v = true ∧ ∀ f, v ≠ VFun f)
  ∧ ∀ this', CMClass.callback this v = Ok this' →
      lookupProp (props this') CM.CALLBACK_KEY
      = (if truthy v then Some v else None)
      ∧ (truthy v = true → ∃ f, v = VFun f)
      ∧ ∀ k, k ≠ CM.CALLBACK_KEY →
             lookupProp (props this') k = lookupProp (props this) k.
Proof.
  assert (∀ k, lookupProp (props (setProp this CM.CALLBACK_KEY v)) k
               = if String.eqb k CM.CALLBACK_KEY then Some v
                 else lookupProp (props this) k) as Hset
    by (intros k; apply lookupProp_setProp).
  assert (∀ k, lookupProp (props (removeProp this CM.CALLBACK_KEY)) k
               = if String.eqb k CM.CALLBACK_KEY then None
                 else lookupProp (props this) k) as Hrem
    by (intros k; apply lookupProp_removeProp).
  unfold CMClass.callback, CM.checkCallback.
  destruct (truthy v) eqn:Ht; cbn [negb].
  - destruct v as [| |b|n|s|f|l]; try discriminate Ht.
    + split; [split; [by intros _|done]|done].
    + split; [split; [by intros _|done]|done].
    + split; [split; [by intros _|done]|done].
    + split.
      * split; [done|]. intros [_ Hf]. by destruct (Hf f).
      * intros this' [= <-]. split; [by rewrite Hset|].
        split; [by eexists|].
        intros k Hk. rewrite Hset.
        by destruct (String.eqb_spec k CM.CALLBACK_KEY).
    + split; [split; [by intros _|done]|done].
  - split; [split; [done|by intros [? _]]|].
    intros this' [= <-].
    split; [by rewrite Hrem, String.eqb_refl|].
    split; [done|].
    intros k Hk. rewrite Hrem.
    by destruct (String.eqb_spec k CM.CALLBACK_KEY).
Qed.

Lemma getOwn_setProp_plain (o : obj) (k : string) (v : value) :
  getOwn (setProp o k v) k = v.
Proof. unfold getOwn. by rewrite lookupProp_setProp, String.eqb_refl. Qed.

(** [parentDependent]: switching the flag on puts one "?" before a key that
    has none and leaves a key that has one, so switching it on twice is
    switching it on once; switching it on and off again gives back a key
    that had no "?"; switching it off takes one "?" away, which leaves the
    key "?" empty. *)
Theorem parentDependent_round_trip (this : obj) (s : string) (on off : value) :
  lookupProp (props this) CM.KEY_KEY = Some (VStr s) →
  truthy on = true → truthy off = false →
  (∃ this1, CMClass.parentDependent this on = Ok this1
     ∧ getOwn this1 CM.KEY_KEY
       = VStr (if startsWithIndicator s then s else String "?" s)
     ∧ CMClass.parentDependent this1 on = Ok this1
     ∧ (startsWithIndicator s = false →
        ∃ this2, CMClass.parentDependent this1 off = Ok this2
                 ∧ getOwn this2 CM.KEY_KEY = VStr s))
  ∧ (∃ this3, CMClass.parentDependent this off = Ok this3
       ∧ getOwn this3 CM.KEY_KEY
         = VStr (if startsWithIndicator s then afterIndicator s else s)).
Proof.
  intros Hk Hon Hoff.
  assert (getOwn this CM.KEY_KEY = VStr s) as Hget
    by (unfold getOwn; by rewrite Hk).
  split.
  - unfold CMClass.parentDependent at 1. rewrite Hget, Hon. simpl.
    destruct (startsWithIndicator s) eqn:Hs; simpl.
    + exists this. split; [done|]. split; [done|]. split; [|done].
      unfold CMClass.parentDependent. by rewrite Hget, Hon, Hs.
    + eexists. split; [reflexivity|].
      split; [apply getOwn_setProp_plain|]. split.
      * unfold CMClass.parentDependent.
        rewrite getOwn_setProp_plain, Hon. reflexivity.
      * intros _. unfold CMClass.parentDependent.
        rewrite getOwn_setProp_plain, Hoff. simpl.
        eexists. split; [reflexivity|]. apply getOwn_setProp_plain.
  - unfold CMClass.parentDependent. rewrite Hget, Hoff. simpl.
    destruct (startsWithIndicator s) eqn:Hs; simpl.
    + eexists. split; [reflexivity|]. apply getOwn_setProp_plain.
    + by exists this.
Qed.

(** The static access functions read back what the methods wrote: after
    [default(v)] the default is [v], or [undefined] when [v] is [undefined]
    or [null]; after [mandatory(v)] the flag is [true] or [undefined]; after
    [callback(v)] the callback is the function or [undefined]; and the key
    is not touched by any of the three.  After [parentDependent(v)] the flag
    reads [true] for a truthy [v]; for a falsy [v] it reads [false] unless
    the key began with two "?", of which one is left. *)
Theorem getters_read_back_the_setters h l (s : string) (v : value) :
  (l < length h)%nat →
  lookupProp (props (objAt h l)) CM.KEY_KEY = Some (VStr s) →
  CMClass.getDefault (<[l := CMClass.default (objAt h l) v]> h) (VRef l)
  = Ok (if isNullish v then VUndef else v)
  ∧ CMClass.getMandatory (<[l := CMClass.mandatory (objAt h l) v]> h) (VRef l)
    = Ok (if truthy v then VBool true else VUndef)
  ∧ (∀ this', CMClass.callback (objAt h l) v = Ok this' →
       CMClass.getCallback (<[l := this']> h) (VRef l)
       = Ok (if truthy v then v else VUndef)
       ∧ CMClass.getKey (<[l := this']> h) (VRef l) = Ok (VStr s))
  ∧ CMClass.getKey (<[l := CMClass.default (objAt h l) v]> h) (VRef l)
    = Ok (VStr s)
  ∧ CMClass.getKey (<[l := CMClass.mandatory (objAt h l) v]> h) (VRef l)
    = Ok (VStr s)
  ∧ (∀ this', CMClass.parentDependent (objAt h l) v = Ok this' →
       CMClass.getParentDependent (<[l := this']> h) (VRef l)
       = Ok (VBool (if truthy v then true
                    else startsWithIndicator s
                         && startsWithIndicator (afterIndicator s)))).
Proof.
  intros Hl Hk. set (this := objAt h l) in *.
  assert (∀ o k, k ≠ "length" →
            getOwn o k = match lookupProp (props o) k with
                         | Some x => x
                         | None => VUndef
                         end) as Hget.
  { intros o k Hne. unfold getOwn. destruct (lookupProp (props o) k); [done|].
    destruct (arrLen o); [|done].
    by destruct (String.eqb_spec k "length"). }
  unfold CMClass.getDefault, CMClass.getMandatory, CMClass.getCallback,
    CMClass.getKey, CMClass.getParentDependent.
  cbn [truthy getv]. rewrite !objAt_insert by done.
  split; [|split; [|split; [|split; [|split]]]].
  - rewrite Hget by done. unfold CMClass.default. destruct (isNullish v).
    + by rewrite lookupProp_removeProp.
    + by rewrite lookupProp_setProp.
  - rewrite Hget by done. unfold CMClass.mandatory.
    destruct (truthy v); cbn [negb].
    + by rewrite lookupProp_setProp.
    + by rewrite lookupProp_removeProp.
  - intros this'. unfold CMClass.callback, CM.checkCallback.
    destruct (truthy v) eqn:Ht; cbn [negb].
    + destruct v as [| |b|n|s'|f|l']; cbn; try done.
      intros [= <-]. rewrite objAt_insert by done.
      rewrite !Hget by done. rewrite !lookupProp_setProp. cbn.
      by rewrite Hk.
    + cbn. intros [= <-]. rewrite objAt_insert by done.
      rewrite !Hget by done. rewrite !lookupProp_removeProp. cbn.
      by rewrite Hk.
  - rewrite Hget by done. unfold CMClass.default. destruct (isNullish v).
    + rewrite lookupProp_removeProp. cbn. by rewrite Hk.
    + rewrite lookupProp_setProp. cbn. by rewrite Hk.
  - rewrite Hget by done. unfold CMClass.mandatory.
    destruct (truthy v); cbn [negb].
    + rewrite lookupProp_setProp. cbn. by rewrite Hk.
    + rewrite lookupProp_removeProp. cbn. by rewrite Hk.
  - intros this'. unfold CMClass.parentDependent.
    rewrite (Hget this) by done. rewrite Hk.
    destruct (truthy v), (startsWithIndicator s) eqn:Hs; cbn;
      intros [= <-]; rewrite objAt_insert by done;
      rewrite ?getOwn_setProp_plain, ?(Hget this), ?Hk by done; cbn;
      by rewrite ?Hs.
Qed.

Lemma wellBuilt_setProp (this : obj) (k : string) (v : value) :
  wellBuilt this →
  (k = CM.KEY_KEY → ∃ s, v = VStr s) →
  (k = CM.CALLBACK_KEY → ∃ f, v = VFun f) →
  (k = CM.MANDATORY_KEY → v = VBool true) →
  wellBuilt (setProp this k v).
Proof.
  intros (Hkey & Hcb & Hmand) Hk Hc Hm. split; [|split].
  - rewrite lookupProp_setProp.
    destruct (String.eqb_spec CM.KEY_KEY k) as [<-|_]; [|done].
    destruct (Hk eq_refl) as [s ->]. by exists s.
  - intros x. rewrite lookupProp_setProp.
    destruct (String.eqb_spec CM.CALLBACK_KEY k) as [<-|_]; [|by apply Hcb].
    intros [= <-]. by apply Hc.
  - intros x. rewrite lookupProp_setProp.
    destruct (String.eqb_spec CM.MANDATORY_KEY k) as [<-|_]; [|by apply Hmand].
    intros [= <-]. by apply Hm.
Qed.

Lemma wellBuilt_removeProp (this : obj) (k : string) :
  wellBuilt this → k ≠ CM.KEY_KEY → wellBuilt (removeProp this k).
Proof.
  intros (Hkey & Hcb & Hmand) Hk. split; [|split].
  - rewrite lookupProp_removeProp.
    by destruct (String.eqb_spec CM.KEY_KEY k) as [<-|_].
  - intros x. rewrite lookupProp_removeProp.
    destruct (String.eqb CM.CALLBACK_KEY k); [done|by apply Hcb].
  - intros x. rewrite lookupProp_removeProp.
    destruct (String.eqb CM.MANDATORY_KEY k); [done|by apply Hmand].
Qed.

Lemma wellBuilt_applyCall (this this' : obj) (c : builderCall) :
  wellBuilt this → applyCall this c = Ok this' → wellBuilt this'.
Proof.
  intros Hw. destruct c as [v|v|v|v]; simpl.
  - intros [= <-]. unfold CMClass.default. destruct (isNullish v).
    + by apply wellBuilt_removeProp.
    + by apply wellBuilt_setProp.
  - intros [= <-]. unfold CMClass.mandatory. destruct (negb (truthy v)).
    + by apply wellBuilt_removeProp.
    + by apply wellBuilt_setProp.
  - unfold CMClass.callback, CM.checkCallback.
    destruct (negb (truthy v)); cbn.
    + intros [= <-]. by apply wellBuilt_removeProp.
    + destruct v as [| |b|n|s|f|l]; cbn; try done.
      intros [= <-]. apply wellBuilt_setProp; try done. intros _. by exists f.
  - destruct Hw as (Hkey & Hcb & Hmand). destruct Hkey as [s Hs].
    assert (wellBuilt this) as Hw by (split; [by exists s|by split]).
    unfold CMClass.parentDependent, getOwn. rewrite Hs.
    destruct (truthy v && negb (startsWithIndicator s)).
    + intros [= <-]. apply wellBuilt_setProp; try done. intros _. by eexists.
    + destruct (negb (truthy v) && startsWithIndicator s).
      * intros [= <-]. apply wellBuilt_setProp; try done.
        intros _. by eexists.
      * by intros [= <-].
Qed.

Lemma wellBuilt_applyCalls (cs : list builderCall) :
  ∀ this this', wellBuilt this → applyCalls this cs = Ok this' →
                wellBuilt this'.
Proof.
  induction cs as [|c cs IH]; intros this this' Hw; simpl.
  - by intros [= <-].
  - destruct (applyCall this c) as [this1| |] eqn:Hc; cbn; [|done|done].
    apply IH. by eapply wellBuilt_applyCall.
Qed.

(** A macro made from a string with the constructor and any sequence of
    [default], [mandatory], [callback] and [parentDependent] calls that did
    not throw: its key is still a string, its mandatory flag is [true] if it
    has one, and its callback, if it has one, is a function, so
    [checkCallback] at resolution never throws for it: a callback that is not
    a function is refused when it is set. *)
Theorem builder_keeps_macro_well_formed h (s : string) (_default : value)
  (cs : list builderCall) (this this' : obj) :
  s ≠ EmptyString →
  CMClass.constructor h (VStr s) _default = Constructed this →
  applyCalls this cs = Ok this' →
  wellBuilt this'
  ∧ ∃ b, CM.checkCallback (getOwn this' CM.CALLBACK_KEY) = Ok b.
Proof.
  intros Hs Hc Hcalls.
  destruct (constructor_string_lookup h s _default Hs)
    as (this0 & Hc0 & _ & Hkey & Hdef & Hnone).
  rewrite Hc in Hc0. injection Hc0 as <-.
  assert (wellBuilt this) as Hw.
  { split; [by exists s|]. split; intros v; by rewrite Hnone. }
  pose proof (wellBuilt_applyCalls cs this this' Hw Hcalls) as Hw'.
  split; [exact Hw'|].
  destruct Hw' as (_ & Hcb & _).
  unfold getOwn, CM.checkCallback.
  destruct (lookupProp (props this') CM.CALLBACK_KEY) as [v|] eqn:Hv.
  - destruct (Hcb v eq_refl) as [f ->]. by eexists.
  - destruct (arrLen this'); by eexists.
Qed.

(** ** [getValue] *)

Lemma objAt_app_l (h : heap) (o : obj) (l : loc) :
  (l < length h)%nat → objAt (h ++ [o]) l = objAt h l.
Proof. intros Hl. unfold objAt. by rewrite lookup_app_l. Qed.

Lemma objAt_app_new (h : heap) (o : obj) : objAt (h ++ [o]) (length h) = o.
Proof.
  unfold objAt. rewrite lookup_app_r by lia. by rewrite Nat.sub_diag.
Qed.

Lemma closedHeap_getOwn h l k l' :
  closedHeap h → (l < length h)%nat →
  getOwn (objAt h l) k = VRef l' → (l' < length h)%nat.
Proof.
  intros Hc Hl. unfold getOwn, objAt.
  destruct (h !! l) as [o|] eqn:Ho.
  - destruct (lookupProp (props o) k) as [v|] eqn:Hv.
    + intros ->. by eapply Hc.
    + destruct (arrLen o); [|done]. by destruct (k =? "length")%string.
  - by apply lookup_lt_is_Some_2 in Hl as [? ?].
Qed.

Section GetValueFacts.

Variable resolverFn :
  fnid -> heap -> value -> list string -> value -> path -> outcome value.
Variable callbackFn :
  fnid -> heap -> value -> value -> path -> outcome value.

Abbreviation callResolver := (callResolver resolverFn).
Abbreviation queryRepositories := (queryRepositories resolverFn).
Abbreviation getCmValue := (getCmValue resolverFn callbackFn).
Abbreviation resolveMacro := (resolveMacro resolverFn callbackFn).
Abbreviation getValue := (getValue resolverFn callbackFn).

Lemma default_resolver_ext h o (split : list string) :
  closedHeap h →
  ∀ src, (∀ l, src = VRef l → (l < length h)%nat) →
    default_resolver (h ++ [o]) src split = default_resolver h src split.
Proof.
  intros Hc. induction split as [|p rest IH]; intros src Hsrc; simpl; [done|].
  assert (getv (h ++ [o]) src p = getv h src p) as ->.
  { destruct src as [| |b|n|s|f|l]; try done. simpl.
    by rewrite objAt_app_l by (by apply Hsrc). }
  destruct (getv h src p) as [r| |] eqn:Hg; cbn; [|done|done].
  destruct (isNullish r); [done|]. apply IH.
  intros l' ->. destruct src as [| |b|n|s|f|l]; simpl in Hg; try done.
  - destruct (p =? "length")%string; [done|].
    destruct (parseIndex p) as [i|]; [|done]. by destruct (nthChar s i).
  - injection Hg as Hg. eapply closedHeap_getOwn; [done| |exact Hg].
    by apply Hsrc.
Qed.

Lemma queryRepositories_ext h o rs split cm pth cm' pth' :
  closedHeap h → defaultSources h rs →
  queryRepositories (h ++ [o]) rs split cm pth
  = queryRepositories h rs split cm' pth'.
Proof.
  intros Hc Hrs. induction Hrs as [|e rs [Hres Hsrc] _ IH]; simpl; [done|].
  unfold callResolver. rewrite Hres.
  rewrite default_resolver_ext by done.
  destruct (default_resolver h (entrySource e) split) as [r| |]; cbn;
    [|done|done].
  by destruct (isDefined r).
Qed.

Lemma getValue_string fuel h rs (s : string) d pk :
  s ≠ EmptyString →
  ∃ this pth,
    CMClass.constructor h (VStr s) d = Constructed this
    ∧ getValue fuel h rs (VStr s) d pk
      = Constructed (getCmValue fuel (h ++ [this]) rs (VRef (length h)) pth)
    ∧ macroKey (h ++ [this]) (length h) s
    ∧ lookupProp (props this) CM.DEFAULT_KEY
      = (if isDefined d then Some d else None)
    ∧ macroProp (h ++ [this]) (length h) CM.CALLBACK_KEY = VUndef
    ∧ macroProp (h ++ [this]) (length h) CM.MANDATORY_KEY = VUndef
    ∧ (pk = None ∨ pk = Some VUndef → pth = [])
    ∧ (∀ p, pk = Some p → p ≠ VUndef →
            (∀ l, p = VRef l → arrLen (objAt h l) = None) → pth = [p]).
Proof.
  intros Hs.
  destruct (constructor_string_lookup h s d Hs)
    as (this & Hc & Harr & Hkey & Hdef & Hnone).
  unfold getValue. rewrite Hc.
  eexists this, _. split; [done|]. split; [reflexivity|].
  split; [split; [by rewrite objAt_app_new|done]|].
  split; [done|].
  unfold macroProp, getOwn. rewrite objAt_app_new, !Hnone, Harr by done.
  split; [done|]. split; [done|]. split; [by intros [->| ->]|].
  intros p -> Hne Hp. destruct p as [| |b|n|s'|f|l]; try done.
  by rewrite (Hp l eq_refl).
Qed.

(** [getValue] with a key that starts with "?" and a parent given as a
    single key (or left out): the path of the lookup has at most that one
    entry, which counts as the node's own, so the marker is replaced by the
    empty string and the lookup runs under the rest of the key; the parent
    key is not part of the search key. *)
Theorem getValue_parent_key_is_not_used fuel h rs (rest : string) d pk :
  (∀ p l, pk = Some p → p = VRef l → arrLen (objAt h l) = None) →
  ∃ this pth,
    CMClass.constructor h (VStr (String "?" rest)) d = Constructed this
    ∧ (length pth ≤ 1)%nat
    ∧ expandKey (String "?" rest) pth = Some rest
    ∧ getValue (S fuel) h rs (VStr (String "?" rest)) d pk
      = Constructed
          (resolveMacro (getCmValue fuel (h ++ [this]) rs) (h ++ [this]) rs
             (VRef (length h)) pth rest).
Proof.
  intros Hpk.
  destruct (getValue_string (S fuel) h rs (String "?" rest) d pk)
    as (this & pth & Hc & Hg & Hm & _ & _ & _ & Hnone & Hsome); [done|].
  assert (length pth ≤ 1)%nat as Hlen.
  { destruct pk as [p|]; [destruct p as [| |b|n|s'|f|l]|];
      try (rewrite Hnone by (by (left + right)); simpl; lia);
      (rewrite (Hsome _ eq_refl); [simpl; lia|done|intros l'; by apply Hpk]). }
  assert (expandKey (String "?" rest) pth = Some rest) as Hk.
  { destruct (parentOf_total pth) as [parent Hp].
    rewrite (expandKey_indicator rest pth parent Hp).
    destruct (findParent_segment pth _ _ _ Hp) as [->|(i & Hi & _)];
      [done|lia]. }
  exists this, pth. split; [done|]. split; [done|]. split; [done|].
  rewrite Hg. f_equal.
  by apply (getCmValue_macro resolverFn callbackFn fuel _ rs _ pth
              (String "?" rest)).
Qed.

(** [getValue] on a chain of sources with the default resolver, for a key
    without "?": it returns what the chain has for the key; when the chain
    has nothing it returns [undefined] if no default is given, and a default
    that is not a macro as it is ([null] included). *)
Theorem getValue_from_default_sources fuel h rs (s : string) d v pk :
  closedHeap h → defaultSources h rs →
  s ≠ EmptyString → startsWithIndicator s = false →
  queryRepositories h rs (split_slash s) VUndef [] = Ok v →
  (isNullish v = false →
   getValue (S fuel) h rs (VStr s) d pk = Constructed (Ok v))
  ∧ (isNullish v = true → d = VUndef →
     getValue (S fuel) h rs (VStr s) d pk = Constructed (Ok v))
  ∧ (isNullish v = true → d ≠ VUndef →
     hasOwnProperty h d CM.KEY_KEY = false →
     (∀ l, d = VRef l → (l < length h)%nat) →
     getValue (S (S fuel)) h rs (VStr s) d pk = Constructed (Ok d)).
Proof.
  intros Hc Hrs Hs Hq Hv.
  assert (∀ fuel',
            ∃ this pth,
              getValue (S fuel') h rs (VStr s) d pk
              = Constructed
                  (r ← resolveDefault (getCmValue fuel' (h ++ [this]) rs)
                         (h ++ [this]) (VRef (length h)) pth v;
                   Ok r)
              ∧ lookupProp (props (objAt (h ++ [this]) (length h)))
                  CM.DEFAULT_KEY
                = (if isDefined d then Some d else None)) as Hstep.
  { intros fuel'.
    destruct (getValue_string (S fuel') h rs s d pk Hs)
      as (this & pth & _ & Hg & Hm & Hdef & Hcb & Hmand & _).
    exists this, pth. split; [|by rewrite objAt_app_new].
    rewrite Hg. f_equal.
    assert (expandKey s pth = Some s) as Hk
      by (unfold expandKey; by rewrite Hq).
    rewrite (getCmValue_macro resolverFn callbackFn _ _ _ _ _ _ _ Hm Hk).
    assert (queryRepositories (h ++ [this]) rs (split_slash s)
              (VRef (length h)) pth = Ok v) as Hquery
      by (by rewrite (queryRepositories_ext h this rs _ _ _ VUndef [])).
    rewrite (resolveMacro_after_lookup resolverFn callbackFn _ _ _ _ _ _ _
               Hquery).
    rewrite Hcb, Hmand.
    destruct (resolveDefault _ (h ++ [this]) (VRef (length h)) pth v)
      as [r| |]; cbn; [|done|done].
    unfold checkMandatory. by rewrite andb_false_r. }
  split; [|split].
  - intros Hn. destruct (Hstep fuel) as (this & pth & -> & _).
    by rewrite resolveDefault_present.
  - intros Hn ->. destruct (Hstep fuel) as (this & pth & -> & Hd).
    by rewrite resolveDefault_undeclared.
  - intros Hn Hd Hmacro Hin.
    destruct (Hstep (S fuel)) as (this & pth & -> & Hdef).
    assert (isDefined d = true) as Hdd by (by destruct d).
    rewrite Hdd in Hdef.
    rewrite (resolveDefault_declared _ _ _ _ _ _ Hn Hdef).
    rewrite getCmValue_pass_through; [done|].
    destruct d as [| |b|n|s'|f|l]; try done. simpl in *.
    by rewrite objAt_app_l by (by apply Hin).
Qed.

End GetValueFacts.

(** ** The further properties at concrete inputs *)

Lemma unregister_removes_one_entry_witness :
  unregister "added1"
    [mkEntry "env" DefaultResolver (VRef 2);
     mkEntry "added1" DefaultResolver (VRef 0);
     mkEntry "added2" DefaultResolver (VRef 1)]
  = (true, [mkEntry "env" DefaultResolver (VRef 2);
            mkEntry "added2" DefaultResolver (VRef 1)]).
Proof.
  refine (proj1 (unregister_removes_one_entry "added1"
            [mkEntry "env" DefaultResolver (VRef 2)]
            (mkEntry "added1" DefaultResolver (VRef 0))
            [mkEntry "added2" DefaultResolver (VRef 1)] _ _)).
  - intros Hin. apply list_elem_of_singleton in Hin. discriminate.
  - reflexivity.
Defined.

Lemma register_unregister_round_trip_witness :
  unregister "x" (register "x" VUndef 1 VUndef sourcesChain)
  = (true, sourcesChain).
Proof.
  apply register_unregister_round_trip.
  intros Hin. vm_compute in Hin.
  repeat (apply elem_of_cons in Hin as [Hin|Hin]; [discriminate|]).
  by apply elem_of_nil in Hin.
Defined.

Lemma register_position_witness :
  getRepositoryNames (register "added1" (VRef 0) 1 VUndef sourcesChain)
  = ["env"; "added1"; "added2"]
  ∧ register "added1" (VRef 0) 1 VUndef sourcesChain !! 1%nat
    = Some (mkEntry "added1" DefaultResolver (VRef 0)).
Proof.
  pose proof (register_position "added1" (VRef 0) 1 VUndef sourcesChain)
    as H.
  destruct H as (Heq & Hat & _); [lia|].
  split; [by rewrite Heq|exact Hat].
Defined.

Lemma source_registered_first_wins_witness :
  getCmValue exampleResolverFn exampleCallbackFn 1 exampleHeap
    (register "second" (VRef 2) 0 VUndef [sourceFirst]) (VRef 0) []
  = Ok (VStr "second").
Proof.
  apply (source_registered_first_wins exampleResolverFn exampleCallbackFn
           0 exampleHeap [sourceFirst] "second" 2 0 [] "k" "k").
  - split; [reflexivity|discriminate].
  - reflexivity.
  - reflexivity.
  - reflexivity.
  - reflexivity.
  - reflexivity.
Defined.

Lemma default_resolver_total_on_sources_witness :
  (∃ v, default_resolver extraHeap (VRef 8) ["b"; "x"] = Ok v ∧ v ≠ VNull)
  ∧ default_resolver priorityHeap (VRef 1) ["k"; "x"] = Ok VUndef
  ∧ default_resolver extraHeap VUndef ["b"; "x"] = Throw TypeError.
Proof.
  pose proof (default_resolver_total_on_sources extraHeap (VRef 8)
                ["b"; "x"]) as (H1 & _ & _); [discriminate|].
  pose proof (default_resolver_total_on_sources priorityHeap (VRef 1)
                ["k"; "x"]) as (_ & H2 & _); [discriminate|].
  pose proof (default_resolver_total_on_sources extraHeap VUndef
                ["b"; "x"]) as (_ & _ & H3); [discriminate|].
  split; [by apply H1|].
  split; [exact (H2 1%nat "k" ["x"] eq_refl eq_refl eq_refl)|by apply H3].
Defined.

Lemma default_resolver_walks_the_path_witness :
  default_resolver extraHeap (VRef 8) (split_slash "b/a") = Ok (VNum 122)
  ∧ default_resolver extraHeap (VRef 8) (split_slash "x/a") = Ok VUndef.
Proof.
  split.
  - exact (eq_trans
             (proj1 (default_resolver_walks_the_path extraHeap (VRef 8)
                       "b" "a") (VRef 9) eq_refl eq_refl) eq_refl).
  - exact (proj2 (default_resolver_walks_the_path extraHeap (VRef 8)
                    "x" "a") eq_refl).
Defined.

Lemma invalid_key_is_rejected_witness :
  getCmValue exampleResolverFn exampleCallbackFn 1 extraHeap
    [sourceNull] (VRef 5) [VStr "parent"]
  = Throw (CuError (InvalidMacroKey (VNum 123) [VStr "parent"])).
Proof.
  apply invalid_key_is_rejected; [reflexivity|].
  intros s. discriminate.
Defined.

Lemma callback_decides_the_result_witness :
  getCmValue exampleResolverFn exampleCallbackFn 1 extraHeap
    [] (VRef 0) []
  = Throw (CuError (MandatoryValueMissing []))
  ∧ getCmValue exampleResolverFn exampleCallbackFn 1 extraHeap
      [mkEntry "src" DefaultResolver (VRef 1)] (VRef 0) []
    = Ok (VStr "first").
Proof.
  split.
  - refine (proj1 (proj2 (callback_decides_the_result
              exampleResolverFn exampleCallbackFn 0 extraHeap [] 0 []
              "k" "k" VUndef 0 _ _ _ _)) VUndef _ _).
    + split; [reflexivity|discriminate].
    + reflexivity.
    + reflexivity.
    + reflexivity.
    + reflexivity.
    + reflexivity.
  - refine (proj1 (callback_decides_the_result
              exampleResolverFn exampleCallbackFn 0 extraHeap
              [mkEntry "src" DefaultResolver (VRef 1)] 0 []
              "k" "k" (VStr "first") 0 _ _ _ _) (VStr "first") _ _).
    + split; [reflexivity|discriminate].
    + reflexivity.
    + reflexivity.
    + reflexivity.
    + reflexivity.
    + reflexivity.
Defined.

Lemma missing_mandatory_default_names_the_marker_witness :
  getCmValue exampleResolverFn exampleCallbackFn 2 extraHeap
    [mkEntry "src" DefaultResolver (VRef 1)] (VRef 2) [VStr "prop"]
  = Throw (CuError (MandatoryValueMissing
                      [VStr "prop"; VStr "CM.DEFAULT_KEY"])).
Proof.
  apply (missing_mandatory_default_names_the_marker
           exampleResolverFn exampleCallbackFn 0 extraHeap
           [mkEntry "src" DefaultResolver (VRef 1)] 2 [VStr "prop"]
           "a" "a" 3 "b" "b").
  - split; [reflexivity|discriminate].
  - reflexivity.
  - constructor; [reflexivity|constructor].
  - reflexivity.
  - split; [reflexivity|discriminate].
  - reflexivity.
  - constructor; [reflexivity|constructor].
  - reflexivity.
  - reflexivity.
  - reflexivity.
Defined.

Lemma self_default_never_resolves_witness :
  getCmValue exampleResolverFn exampleCallbackFn 1000 extraHeap
    [mkEntry "src" DefaultResolver (VRef 1)] (VRef 4) []
  = OutOfFuel.
Proof.
  apply (self_default_never_resolves exampleResolverFn exampleCallbackFn
           extraHeap [mkEntry "src" DefaultResolver (VRef 1)] 4 "a").
  - split; [reflexivity|discriminate].
  - reflexivity.
  - intros pth. exists VUndef. split; reflexivity.
  - reflexivity.
Defined.

Lemma parent_is_an_earlier_name_witness :
  (∃ i, (i < 2)%nat
        ∧ [VStr "branchList"; VStr "listResult"; VNum 2] !! i
          = Some (VStr "branchList")).
Proof.
  destruct (proj1 (parent_is_an_earlier_name
                     [VStr "branchList"; VStr "listResult"; VNum 2]
                     "branchList" eq_refl)) as [H|H].
  - discriminate H.
  - exact H.
Defined.

Lemma updateConfig_never_removes_witness :
  storeGrows fallbackHeap fallbackHeapDone.
Proof.
  apply (updateConfig_never_removes exampleResolverFn exampleCallbackFn
           examplePrimEqObj exampleLengthOf [testRepository] (Some []) 3 fallbackHeap
           (VRef 0) (VStr EmptyString)).
  reflexivity.
Defined.

Lemma macro_property_is_replaced_witness :
  traverseConfig exampleResolverFn exampleCallbackFn examplePrimEqObj
    exampleLengthOf
    [mkEntry "src" DefaultResolver (VRef 1)] (Some []) 2 extraHeap [] 6
  = Ok (setAt extraHeap 6 "url" (VStr "first")).
Proof.
  refine (proj1 (macro_property_is_replaced
            exampleResolverFn exampleCallbackFn examplePrimEqObj exampleLengthOf
            [mkEntry "src" DefaultResolver (VRef 1)] (Some []) 1 extraHeap
            6 [] "url" 7 (VStr "first") _ _ _ _ _ _ _ _)).
  - reflexivity.
  - reflexivity.
  - intros k' Hne. unfold getOwn.
    change (objAt extraHeap 6)
      with (mkObj None [("url", VRef 7); ("name", VStr "n")]).
    cbn [props arrLen lookupProp].
    destruct (String.eqb_spec "url" k') as [Heq|_]; [by destruct Hne|].
    by destruct (String.eqb_spec "name" k').
  - discriminate.
  - reflexivity.
  - reflexivity.
  - reflexivity.
  - reflexivity.
Defined.

Lemma constructor_from_string_witness :
  ∃ this, CMClass.constructor [] (VStr "test") (VStr "_default")
          = Constructed this
    ∧ lookupProp (props this) CM.KEY_KEY = Some (VStr "test")
    ∧ lookupProp (props this) CM.DEFAULT_KEY = Some (VStr "_default").
Proof.
  destruct (constructor_from_string [] "test" (VStr "_default"))
    as (this & Hc & _ & Hk & Hd & _); [discriminate|].
  exists this. by repeat split.
Defined.

Lemma constructor_copies_witness :
  ∃ this, CMClass.constructor extraHeap (VRef 0) VUndef = Constructed this
    ∧ props this = props (objAt extraHeap 0).
Proof.
  destruct (constructor_copies extraHeap 0 VUndef)
    as (this & Hc & Hp & _); [reflexivity|].
  exists this. split; [exact Hc|exact (Hp eq_refl eq_refl)].
Defined.

Lemma parentDependent_round_trip_witness :
  ∃ this1 this2,
    CMClass.parentDependent (objAt exampleHeap 0) (VBool true) = Ok this1
    ∧ getOwn this1 CM.KEY_KEY = VStr "?k"
    ∧ CMClass.parentDependent this1 (VBool false) = Ok this2
    ∧ getOwn this2 CM.KEY_KEY = VStr "k".
Proof.
  destruct (parentDependent_round_trip (objAt exampleHeap 0) "k"
              (VBool true) (VBool false) eq_refl eq_refl eq_refl)
    as [(this1 & H1 & Hk1 & _ & Hback) _].
  destruct (Hback eq_refl) as (this2 & H2 & Hk2).
  exists this1, this2. by repeat split.
Defined.

Lemma builder_keeps_macro_well_formed_witness :
  ∃ this', applyCalls (setProp emptyObj CM.KEY_KEY (VStr "URL"))
             [CallDefault (VStr "www.github.com");
              CallCallback (VFun 0); CallMandatory (VBool true)]
           = Ok this'
    ∧ wellBuilt this'.
Proof.
  eexists. split; [reflexivity|].
  refine (proj1 (builder_keeps_macro_well_formed [] "URL" VUndef
            [CallDefault (VStr "www.github.com");
             CallCallback (VFun 0); CallMandatory (VBool true)]
            _ _ _ eq_refl eq_refl)).
  discriminate.
Defined.

Lemma getValue_parent_key_is_not_used_witness :
  ∃ this pth,
    expandKey "?_PROP" pth = Some "_PROP"
    ∧ getValue exampleResolverFn exampleCallbackFn 1 exampleHeap
        [sourceFirst] (VStr "?_PROP") VUndef (Some (VStr "xx"))
      = Constructed
          (resolveMacro exampleResolverFn exampleCallbackFn
             (getCmValue exampleResolverFn exampleCallbackFn 0
                (exampleHeap ++ [this]) [sourceFirst])
             (exampleHeap ++ [this]) [sourceFirst]
             (VRef (length exampleHeap)) pth "_PROP").
Proof.
  destruct (getValue_parent_key_is_not_used exampleResolverFn
              exampleCallbackFn 0 exampleHeap [sourceFirst] "_PROP" VUndef
              (Some (VStr "xx")))
    as (this & pth & _ & _ & Hk & Hg).
  - intros p l [= <-]. discriminate.
  - by exists this, pth.
Defined.

Lemma sourcesHeap_closed : closedHeap sourcesHeap.
Proof.
  intros l o k l' Hl Hk.
  destruct l as [|[|[|l]]]; simpl in Hl; try discriminate Hl;
    injection Hl as <-; cbn [props lookupProp] in Hk;
    repeat case_match; discriminate Hk.
Qed.

Lemma getValue_from_default_sources_witness :
  getValue exampleResolverFn exampleCallbackFn 1 sourcesHeap sourcesChain
    (VStr "add1x") VUndef (Some (VStr "parent"))
  = Constructed (Ok (VNum 11))
  ∧ getValue exampleResolverFn exampleCallbackFn 2 sourcesHeap sourcesChain
      (VStr "missing") (VStr "fallback") None
    = Constructed (Ok (VStr "fallback")).
Proof.
  assert (defaultSources sourcesHeap sourcesChain) as Hrs.
  { unfold defaultSources.
    change sourcesChain
      with [mkEntry "env" DefaultResolver (VRef 2);
            mkEntry "added1" DefaultResolver (VRef 0);
            mkEntry "added2" DefaultResolver (VRef 1)].
    repeat (apply Forall_cons_2;
            [split; [reflexivity|intros l [= <-]; simpl; lia]|]).
    apply Forall_nil_2. }
  split.
  - refine (proj1 (getValue_from_default_sources exampleResolverFn
              exampleCallbackFn 0 sourcesHeap sourcesChain "add1x" VUndef
              (VNum 11) (Some (VStr "parent"))
              sourcesHeap_closed Hrs _ eq_refl eq_refl) eq_refl).
    discriminate.
  - refine (proj2 (proj2 (getValue_from_default_sources exampleResolverFn
              exampleCallbackFn 0 sourcesHeap sourcesChain "missing"
              (VStr "fallback") VUndef None
              sourcesHeap_closed Hrs _ eq_refl eq_refl)) eq_refl _ eq_refl _).
    + discriminate.
    + discriminate.
    + intros l. discriminate.
Defined.

Lemma getters_read_back_the_setters_witness :
  CMClass.getDefault
    (<[7%nat := CMClass.default (objAt extraHeap 7) (VNum 0)]> extraHeap)
    (VRef 7)
  = Ok (VNum 0)
  ∧ CMClass.getMandatory
      (<[7%nat := CMClass.mandatory (objAt extraHeap 7) (VStr "yes")]>
         extraHeap) (VRef 7)
    = Ok (VBool true).
Proof.
  split.
  - refine (proj1 (getters_read_back_the_setters extraHeap 7 "k" (VNum 0)
                     _ eq_refl)).
    simpl. lia.
  - refine (proj1 (proj2 (getters_read_back_the_setters extraHeap 7 "k"
                            (VStr "yes") _ eq_refl))).
    simpl. lia.
Defined.

Lemma excluded_properties_are_skipped_witness :
  traverseConfig exampleResolverFn exampleCallbackFn examplePrimEqObj
    exampleLengthOf
    [] (Some [VStr "pw"]) 1 extraHeap [] 10
  = Ok extraHeap.
Proof.
  apply excluded_properties_are_skipped.
  intros indexKey lv [<-|[<-|[]]] Hv.
  - by right.
  - discriminate Hv.
Defined.

Lemma unregister_reports_presence_witness :
  fst (unregister "added1" sourcesChain) = true
  ∧ snd (unregister "missing" sourcesChain) = sourcesChain.
Proof.
  split.
  - apply (proj2 (proj1 (unregister_reports_presence "added1" sourcesChain))).
    change (getRepositoryNames sourcesChain)
      with ["env"; "added1"; "added2"].
    apply elem_of_cons. right. apply elem_of_cons. by left.
  - apply (proj2 (unregister_reports_presence "missing" sourcesChain)).
    reflexivity.
Defined.

Lemma constructor_accepts_witness :
  (∃ this, CMClass.constructor [] (VStr "URL") VUndef = Constructed this)
  ∧ CMClass.constructor [] VNull VUndef = KeyTypeError
  ∧ CMClass.constructor [] (VNum 123) VUndef = KeyRejected (VNum 123).
Proof.
  split; [|split].
  - apply (proj2 (proj1 (constructor_accepts [] (VStr "URL") VUndef))).
    left. exists "URL". split; [reflexivity|discriminate].
  - by apply (proj2 (proj1 (proj2 (constructor_accepts [] VNull VUndef)))).
  - apply (proj2 (proj2 (constructor_accepts [] (VNum 123) VUndef))).
    by exists (VNum 123).
Defined.

Lemma default_sets_or_removes_witness :
  lookupProp (props (CMClass.default (objAt extraHeap 2) VNull)) CM.KEY_KEY
  = Some (VStr "a").
Proof.
  refine (eq_trans
            (proj2 (default_sets_or_removes (objAt extraHeap 2) VNull)
               CM.KEY_KEY _) eq_refl).
  discriminate.
Defined.

Lemma mandatory_sets_true_or_removes_witness :
  lookupProp (props (CMClass.mandatory (objAt extraHeap 3) (VNum 0)))
    CM.KEY_KEY
  = Some (VStr "b").
Proof.
  refine (eq_trans
            (proj2 (mandatory_sets_true_or_removes (objAt extraHeap 3)
                      (VNum 0)) CM.KEY_KEY _) eq_refl).
  discriminate.
Defined.

Lemma callback_stores_functions_only_witness :
  CMClass.callback (objAt extraHeap 7) (VStr "noFunction")
  = Throw (CuError InvalidCallback).
Proof.
  apply (proj2 (proj1 (callback_stores_functions_only (objAt extraHeap 7)
                         (VStr "noFunction")))).
  split; [reflexivity|]. intros f. discriminate.
Defined.
